(** * location-wishlist: the GraphQL resolvers of [backend/src/index.js]

    The resolvers are embedded as programs of a small state-and-exception
    monad over a [World]: the two tables of the relational store, the
    console, and the write streams of the object store that are still open.
    The callbacks the write stream fires later ([finish], [error]) are
    separate events of a transition system, as they run after the resolver
    that registered them has returned. *)

From Stdlib Require Import Ascii String ZArith.
From stdpp Require Import gmap strings list fin_maps.

Local Open Scope Z_scope.

(** ** JavaScript strings

    A string is a sequence of code units; [ascii] gives the code units
    below 256.  [String.prototype.trim] removes white space and line
    terminators from both ends; below 256 these are TAB, LF, VT, FF, CR,
    SP and NBSP. *)

Definition is_white (c : ascii) : bool :=
  let n := nat_of_ascii c in
  ((9 <=? n) && (n <=? 13))%nat || (n =? 32)%nat || (n =? 160)%nat.

Fixpoint trimStart (s : string) : string :=
  match s with
  | EmptyString => EmptyString
  | String c r => if is_white c then trimStart r else s
  end.

Fixpoint trimEnd (s : string) : string :=
  match s with
  | EmptyString => EmptyString
  | String c r =>
      match trimEnd r with
      | EmptyString => if is_white c then EmptyString else String c EmptyString
      | r' => String c r'
      end
  end.

Definition trim (s : string) : string := trimEnd (trimStart s).

(** [s.trim() == ""] *)
Definition blank (s : string) : bool := String.eqb (trim s) "".

(** [s.startsWith(p)] *)
Definition startsWith (s p : string) : bool := String.prefix p s.

(** ** JavaScript numbers

    A Number is a binary64 value.  The counts are integers, so a Number is
    given by the integer it holds; [round64] is the integer an exact result
    is rounded to, to nearest with ties to the even significand.  Up to
    2^53 every integer is its own Number; above, 53 significant bits are
    kept.  (The magnitudes stay below 2^1024, where binary64 ends: no
    integer column holds such a count.) *)
Definition round64 (z : Z) : Z :=
  let m := Z.abs z in
  if m <? 2 ^ 53 then z
  else
    let e := Z.log2 m - 52 in            (* the bits below the significand *)
    let q := Z.shiftr m e in             (* the 53 bits kept *)
    let r := m - Z.shiftl q e in         (* the bits dropped *)
    let half := Z.shiftl 1 (e - 1) in
    let q' := if r <? half then q
              else if half <? r then q + 1
              else if Z.even q then q else q + 1 in
    Z.sgn z * Z.shiftl q' e.

(** [n++] and [n--] on the Number read from the column [v]: the new value
    of [n]. *)
Definition js_incr (v : Z) : Z := round64 (round64 v + 1).
Definition js_decr (v : Z) : Z := round64 (round64 v - 1).

(** ** Values, exceptions, completions *)

(** What a resolver hands back to the GraphQL layer. *)
Inductive value :=
| undefined
| JBool (b : bool)
| JNumber (n : Z).

Inductive exn :=
| Thrown (msg : string)          (* throw "..." : a bare string *)
| TypeError                      (* property of null, destructuring undefined *)
| ReferenceError (name : string) (* an identifier that is not declared *)
| StreamError (msg : string).    (* what the write stream reports *)

Inductive completion (A : Type) :=
| Normal (v : A)
| Abrupt (e : exn).
Arguments Normal {A} v.
Arguments Abrupt {A} e.

(** ** The store *)

(** Modelled from the spec: [./models] (the Sequelize model definitions) is
    not among the sources.  The spec's data model gives a Location an
    opaque unique identifier generated at creation, an address, a nullable
    imageURL and an approved flag that defaults to false; a Suggestion has
    an idea, a foreign key to its Location and an integer vote count without
    floor or ceiling.  The two timestamps are left out. *)
Record Location := mkLocation {
  address : string;
  imageURL : option string;
  approved : bool
}.

Record Suggestion := mkSuggestion {
  idea : string;
  LocationId : option string;
  votes : Z
}.

(** Modelled from the spec: what the store does to the Suggestions of a
    Location that is destroyed is fixed by the association declared in
    [./models].  The spec leaves it open ("become orphaned unless the storage
    layer cascades on delete"), so it is a parameter of the model. *)
Inductive OnDelete :=
| NoAction   (* the rows keep their dangling foreign key *)
| SetNull    (* the foreign key of the rows is set to NULL *)
| Cascade.   (* the rows are deleted too *)

(** A write stream of the object store that has neither finished nor failed. *)
Record Stream := mkStream {
  stream_location : string;  (* [location.id] captured by the callbacks *)
  stream_file : string;      (* [file.name] *)
  stream_contentType : string;
  stream_data : string       (* the buffer given to [stream.end] *)
}.

Record World := mkWorld {
  Locations : gmap string Location;   (* table Locations, by primary key *)
  Suggestions : list Suggestion;      (* table Suggestions, in row order *)
  issued : gset string;               (* identifiers generated so far *)
  console : list exn;                 (* what console.error has printed *)
  streams : list Stream
}.

Definition empty_world : World := mkWorld ∅ [] ∅ [] [].

(** ** The monad of resolvers *)

Definition M (A : Type) : Type := World → completion A * World.

Definition ret {A} (v : A) : M A := λ w, (Normal v, w).

Definition bind {A B} (m : M A) (k : A → M B) : M B :=
  λ w, match m w with
       | (Normal v, w') => k v w'
       | (Abrupt e, w') => (Abrupt e, w')
       end.

Definition throw {A} (e : exn) : M A := λ w, (Abrupt e, w).

(** [p.catch(h)] *)
Definition catch {A} (m : M A) (h : exn → M A) : M A :=
  λ w, match m w with
       | (Normal v, w') => (Normal v, w')
       | (Abrupt e, w') => h e w'
       end.

Notation "x <- m ;; k" := (bind m (λ x, k))
  (at level 100, m at next level, right associativity).
Notation "m ;;; k" := (bind m (λ _, k))
  (at level 100, right associativity).

(** [console.error(e)]; its result is [undefined]. *)
Definition console_error (e : exn) : M value :=
  λ w, (Normal undefined,
        mkWorld (Locations w) (Suggestions w) (issued w) (console w ++ [e]) (streams w)).

(** [sequelize.transaction(t => body)]: a managed transaction commits when
    the promise of [body] is fulfilled, and rolls the tables back and
    rejects with the same error when it is rejected. *)
Definition transaction {A} (body : M A) : M A :=
  λ w, match body w with
       | (Normal v, w') => (Normal v, w')
       | (Abrupt e, w') =>
           (Abrupt e, mkWorld (Locations w) (Suggestions w) (issued w') (console w') (streams w'))
       end.

(** [p.catch(console.error)]: fulfilled with the value of [p], or with the
    result of [console.error], which is [undefined] (here [None]), once
    the error is printed. *)
Definition catch_log {A} (p : M A) : M (option A) :=
  catch (v <- p ;; ret (Some v)) (λ e, console_error e ;;; ret None).

Definition number_or_undefined (r : option Z) : value :=
  match r with Some n => JNumber n | None => undefined end.

Definition bool_or_undefined (r : option bool) : value :=
  match r with Some b => JBool b | None => undefined end.

(** ** Queries of the store *)

(** A row of Locations together with its primary key: [location.id] is the
    first component. *)
Definition LocationInstance : Type := string * Location.

(** [models.Location.findOne({ where: { id } })]: the row or [null]. *)
Definition Location_findOne (id : string) : M (option LocationInstance) :=
  λ w, (Normal ((λ l, (id, l)) <$> Locations w !! id), w).

(** [models.Location.create({ address })] with the identifier [newid] that
    the store generates for the row. *)
Definition Location_create (newid addr : string) : M LocationInstance :=
  λ w, let row := mkLocation addr None false in
       (Normal (newid, row),
        mkWorld (<[newid := row]> (Locations w)) (Suggestions w)
                ({[newid]} ∪ issued w) (console w) (streams w)).

(** [location.save()] after an assignment to one column: the UPDATE sets
    that column in the row with the instance's primary key, if there is one. *)
Definition Location_save (id : string) (set : Location → Location) : M unit :=
  λ w, (Normal tt,
        mkWorld (alter set id (Locations w)) (Suggestions w)
                (issued w) (console w) (streams w)).

Definition set_approved (b : bool) (l : Location) : Location :=
  mkLocation (address l) (imageURL l) b.

Definition set_imageURL (u : string) (l : Location) : Location :=
  mkLocation (address l) (Some u) (approved l).

Definition set_votes (n : Z) (g : Suggestion) : Suggestion :=
  mkSuggestion (idea g) (LocationId g) n.

Definition set_LocationId (o : option string) (g : Suggestion) : Suggestion :=
  mkSuggestion (idea g) o (votes g).

(** The join of [upVote] and [downVote]: [where: { idea }] on the Suggestion
    and [include: [{ model: Location, where: { id } }]], an inner join on an
    existing Location with that identifier. *)
Definition joined (locs : gmap string Location) (idea' id : string)
    (g : Suggestion) : Prop :=
  idea g = idea' ∧ LocationId g = Some id ∧ is_Some (locs !! id).

Instance joined_dec locs idea' id g : Decision (joined locs idea' id g).
Proof. unfold joined. apply _. Defined.

(** A Suggestion instance: the row and its position in the table, which
    stands for the primary key that [save] uses. *)
Definition SuggestionInstance : Type := nat * Suggestion.

Definition Suggestion_findOne (idea' id : string) : M (option SuggestionInstance) :=
  λ w, (Normal (list_find (joined (Locations w) idea' id) (Suggestions w)), w).

(** [suggestion.save()] after [votes] changed. *)
Definition Suggestion_save (i : nat) (n : Z) : M unit :=
  λ w, (Normal tt,
        mkWorld (Locations w) (alter (set_votes n) i (Suggestions w))
                (issued w) (console w) (streams w)).

(** The [where] of [findOrCreate]: no join, the two columns only. *)
Definition keyed (idea' lid : string) (g : Suggestion) : Prop :=
  idea g = idea' ∧ LocationId g = Some lid.

Instance keyed_dec idea' lid g : Decision (keyed idea' lid g).
Proof. unfold keyed. apply _. Defined.

(** [models.Suggestion.findOrCreate({ where: { idea, LocationId },
    defaults: { idea, LocationId, votes: 0 } })]: the pair
    [[instance, created]]. *)
Definition Suggestion_findOrCreate (idea' lid : string) : M (Suggestion * bool) :=
  λ w, match list_find (keyed idea' lid) (Suggestions w) with
       | Some (_, g) => (Normal (g, false), w)
       | None =>
           let g := mkSuggestion idea' (Some lid) 0 in
           (Normal (g, true),
            mkWorld (Locations w) (Suggestions w ++ [g])
                    (issued w) (console w) (streams w))
       end.

(** [models.Location.findOne({ where: { id }, include: [models.Suggestion] })],
    the query [location]: the Location with its Suggestions, or [null]. *)
Definition location (id : string) (w : World)
    : option (LocationInstance * list Suggestion) :=
  (λ l, ((id, l), filter (λ g, LocationId g = Some id) (Suggestions w)))
    <$> Locations w !! id.

Definition gcpBucketName : string := "astoriatech-wishlist-images".

(** The upload that [await args.photo] resolves to; [content] is what
    [getStream.buffer(createReadStream())] reads. *)
Record Upload := mkUpload {
  filename : string;
  mimetype : string;
  content : string
}.

Section Resolvers.

(** The association's behaviour on delete, see [OnDelete]. *)
Variable onDelete : OnDelete.

(** [mime.extension] of the package mime-types: the extension of a content
    type, or [false] (here [None]) when it knows none. *)
Variable mime_extension : string → option string.

Definition orphan (id : string) (rows : list Suggestion) : list Suggestion :=
  match onDelete with
  | NoAction => rows
  | SetNull =>
      (λ g, if decide (LocationId g = Some id) then set_LocationId None g else g)
        <$> rows
  | Cascade => filter (λ g, LocationId g ≠ Some id) rows
  end.

(** [location.destroy()] *)
Definition Location_destroy (id : string) : M unit :=
  λ w, (Normal tt,
        mkWorld (delete id (Locations w)) (orphan id (Suggestions w))
                (issued w) (console w) (streams w)).

(** [location.id + '.' + mime.extension(mimetype)]; string concatenation
    prints [false] as "false". *)
Definition file_name (id mt : string) : string :=
  id +:+ "." +:+ default "false" (mime_extension mt).

(** The write stream of the file named after the Location, with the
    content type of the photo as metadata and the photo's bytes to write. *)
Definition stream_of (id : string) (photo : Upload) : Stream :=
  mkStream id (file_name id (mimetype photo)) (mimetype photo) (content photo).

(** [file.createWriteStream(...)] with the two handlers attached and
    [stream.end(buffer)] called: the stream is open until one of its events
    fires.  Reading the upload into the buffer is taken to succeed. *)
Definition open_stream (st : Stream) : M unit :=
  λ w, (Normal tt,
        mkWorld (Locations w) (Suggestions w) (issued w) (console w)
                (streams w ++ [st])).

Definition addLocation (newid : string) (addr : string) (photo : Upload) : M value :=
  if blank addr then throw (Thrown "Address can't be empty string") else
  location <- Location_create newid addr ;;
  if negb (startsWith (mimetype photo) "image") then
    throw (Thrown "The uploaded file has to be an image")
  else
    open_stream (stream_of (fst location) photo) ;;;
    ret (JBool true).

(** ['https://storage.cloud.google.com/' + bucket.name + '/' + file.name] *)
Definition public_url (file : string) : string :=
  "https://storage.cloud.google.com/" +:+ gcpBucketName +:+ "/" +:+ file.

(** The handler of the stream's [finish] event. *)
Definition on_finish (st : Stream) : M unit :=
  Location_save (stream_location st) (set_imageURL (public_url (stream_file st))).

(** The handler of the stream's [error] event; [next] is declared nowhere
    in the file, so the call after the log is a ReferenceError. *)
Definition on_error (err : exn) : M unit :=
  console_error err ;;;
  throw (ReferenceError "next").

Definition addIdea (id idea' : string) : M value :=
  if blank id then throw (Thrown "Location ID can't be empty string") else
  if blank idea' then throw (Thrown "Idea can't be empty string") else
  r <- catch_log (transaction (
         location <- Location_findOne id ;;
         match location with
         | None => throw TypeError               (* [location.id] of null *)
         | Some (lid, _) => Suggestion_findOrCreate idea' lid
         end)) ;;
  match r with
  | None => throw TypeError                      (* [[suggestion, created]] of undefined *)
  | Some (suggestion, created) => ret (JBool created)
  end.

Definition upVote (id idea' : string) : M value :=
  r <- catch_log (transaction (
         suggestion <- Suggestion_findOne idea' id ;;
         match suggestion with
         | None => throw TypeError               (* [suggestion.votes] of null *)
         | Some (i, g) =>
             let n := js_incr (votes g) in       (* [suggestion.votes++] *)
             Suggestion_save i n ;;;
             ret n
         end)) ;;
  ret (number_or_undefined r).

Definition downVote (id idea' : string) : M value :=
  r <- catch_log (transaction (
         suggestion <- Suggestion_findOne idea' id ;;
         match suggestion with
         | None => throw TypeError               (* [suggestion.votes] of null *)
         | Some (i, g) =>
             let n := js_decr (votes g) in       (* [suggestion.votes--] *)
             Suggestion_save i n ;;;
             ret n
         end)) ;;
  ret (number_or_undefined r).

Definition approveLocation (id : string) : M value :=
  r <- catch_log (transaction (
         location <- Location_findOne id ;;
         match location with
         | None => throw TypeError               (* [location.approved] of null *)
         | Some (lid, l) =>
             let b := negb (approved l) in
             Location_save lid (set_approved b) ;;;
             ret b
         end)) ;;
  ret (bool_or_undefined r).

Definition rejectLocation (id : string) : M value :=
  r <- catch_log (transaction (
         location <- Location_findOne id ;;
         match location with
         | None => throw TypeError               (* [location.destroy] of null *)
         | Some (lid, l) =>
             Location_destroy lid ;;;
             ret (approved l)
         end)) ;;
  ret (bool_or_undefined r).


(** ** Requests and stream events

    A run of the server is a sequence of events: a mutation is resolved, or
    an open write stream fires [finish] or [error].  The store generates the
    identifier of a new Location; it never hands out the same one twice. *)
Inductive event :=
| AddLocation (newid addr : string) (photo : Upload)
| AddIdea (id idea' : string)
| UpVote (id idea' : string)
| DownVote (id idea' : string)
| ApproveLocation (id : string)
| RejectLocation (id : string)
| Finish (k : nat)                 (* the k-th open stream has been written *)
| Error (k : nat) (err : string).  (* the k-th open stream has failed *)

Definition close_stream (k : nat) (w : World) : World :=
  mkWorld (Locations w) (Suggestions w) (issued w) (console w)
          (delete k (streams w)).

(** The world after an event, with what the resolver or handler completed
    with; [None] when the event cannot happen in [w]. *)
Definition fire (e : event) (w : World) : option (completion value * World) :=
  match e with
  | AddLocation newid addr photo =>
      if decide (newid ∈ issued w) then None
      else Some (addLocation newid addr photo w)
  | AddIdea id idea' => Some (addIdea id idea' w)
  | UpVote id idea' => Some (upVote id idea' w)
  | DownVote id idea' => Some (downVote id idea' w)
  | ApproveLocation id => Some (approveLocation id w)
  | RejectLocation id => Some (rejectLocation id w)
  | Finish k =>
      st ← streams w !! k;
      Some (let r := on_finish st (close_stream k w) in (Normal undefined, r.2))
  | Error k err =>
      st ← streams w !! k;
      Some (match on_error (StreamError err) (close_stream k w) with
            | (Normal _, w') => (Normal undefined, w')
            | (Abrupt x, w') => (Abrupt x, w')
            end)
  end.

(** The world after a sequence of events, oldest first. *)
Fixpoint run (es : list event) (w : World) : option World :=
  match es with
  | [] => Some w
  | e :: es' =>
      match fire e w with
      | Some (_, w') => run es' w'
      | None => None
      end
  end.

End Resolvers.

(** ** Overlapping calls of [upVote]

    A call is suspended at each [await]; between two of them it runs
    without interruption, and other calls run while it is suspended.  Of
    [upVote] this leaves two steps that touch the store: the query of
    [findOne], and, in the [then] callback, the increment of the instance
    that the query returned followed by the UPDATE of [save].  The
    transaction [t] is the second argument of [findOne], which takes one,
    and [save] is called without it: neither statement runs inside [t], so
    [t] holds no lock and isolates nothing. *)
Inductive call :=
| AwaitFindOne (id idea' : string)                 (* the query is not yet answered *)
| AwaitSave (suggestion : option SuggestionInstance) (* answered; the callback is due *)
| Resolved (v : value).

(** The next step of a call. *)
Definition advance (c : call) (w : World) : call * World :=
  match c with
  | AwaitFindOne id idea' =>
      (AwaitSave (list_find (joined (Locations w) idea' id) (Suggestions w)), w)
  | AwaitSave None =>
      (Resolved undefined, (console_error TypeError w).2)
  | AwaitSave (Some (i, g)) =>
      let n := js_incr (votes g) in
      (Resolved (JNumber n), (Suggestion_save i n w).2)
  | Resolved v => (Resolved v, w)
  end.

(** The calls and the store after a schedule: the list of the calls that
    take a step, in order. *)
Fixpoint interleave (schedule : list nat) (calls : list call) (w : World)
    : list call * World :=
  match schedule with
  | [] => (calls, w)
  | k :: schedule' =>
      match calls !! k with
      | Some c =>
          let '(c', w') := advance c w in
          interleave schedule' (<[k := c']> calls) w'
      | None => interleave schedule' calls w
      end
  end.

(** ** The uniqueness invariant of the data model

    Among the Suggestions that have a Location, no two rows share the pair
    (idea, LocationId). *)
Definition key (g : Suggestion) : option (string * string) :=
  (λ lid, (idea g, lid)) <$> LocationId g.

Definition keys (rows : list Suggestion) : list (string * string) := omap key rows.

Definition unique_pairs (rows : list Suggestion) : Prop := NoDup (keys rows).

Instance unique_pairs_dec rows : Decision (unique_pairs rows).
Proof. unfold unique_pairs. apply _. Defined.

(** A table of extensions for the examples; [mime.extension] itself is a
    parameter of the resolvers. *)
Definition sample_extension (mt : string) : option string :=
  if String.eqb mt "image/png" then Some "png"
  else if String.eqb mt "image/jpeg" then Some "jpeg"
  else None.

(** ** A world for the examples: two Locations that both have the idea
    "cafe", and one more idea under the first. *)
Definition sample_world : World :=
  mkWorld {[ "1" := mkLocation "40-12 Broadway" None false;
             "2" := mkLocation "29-10 Broadway" None true ]}
          [ mkSuggestion "cafe" (Some "1") 3;
            mkSuggestion "cafe" (Some "2") 5;
            mkSuggestion "park" (Some "1") (-1) ]
          {[ "1"; "2" ]} [] [].

(** A world in which one Suggestion has reached 2^53 votes, the first
    integer whose successor is no Number. *)
Definition crowded_world : World :=
  mkWorld {[ "1" := mkLocation "40-12 Broadway" None true ]}
          [ mkSuggestion "cafe" (Some "1") (2 ^ 53) ]
          {[ "1" ]} [] [].

(** ** The list queries *)

(** [include: [models.Suggestion]]: a Location comes with the Suggestions
    whose foreign key is its identifier. *)
Definition included (w : World) (inst : LocationInstance)
    : LocationInstance * list Suggestion :=
  (inst, filter (λ g, LocationId g = Some inst.1) (Suggestions w)).

(** [models.Location.findAll({ where, include: [models.Suggestion] })]:
    the rows that satisfy [where], in the order the store returns them. *)
Definition Location_findAll (where_ : Location → bool) (w : World)
    : list (LocationInstance * list Suggestion) :=
  included w <$> filter (λ x, where_ x.2 = true) (map_to_list (Locations w)).

(** The query [locations]: no [where]. *)
Definition locations (w : World) : list (LocationInstance * list Suggestion) :=
  Location_findAll (λ _, true) w.

(** The query [approvedLocations]: [where: { approved: true }]. *)
Definition approvedLocations (w : World) : list (LocationInstance * list Suggestion) :=
  Location_findAll approved w.

(** The query [submittedLocations]: [where: { approved: false }]. *)
Definition submittedLocations (w : World) : list (LocationInstance * list Suggestion) :=
  Location_findAll (λ l, negb (approved l)) w.

(** The characters of a string, to speak about its white space. *)
Definition chars (s : string) : list ascii := list_ascii_of_string s.

Instance Upload_eq_dec : EqDecision Upload.
Proof. solve_decision. Defined.

Instance event_eq_dec : EqDecision event.
Proof. solve_decision. Defined.

(** The stored texts have passed the checks of the resolvers: no address
    and no idea is blank. *)
Definition validated (w : World) : Prop :=
  map_Forall (λ _ l, blank (address l) = false) (Locations w)
  ∧ Forall (λ g, blank (idea g) = false) (Suggestions w).

(** The store after a vote that takes the count [n] to [f n]: what
    [upVote] leaves with [f = js_incr] and [downVote] with [f = js_decr]. *)
Definition voted (f : Z → Z) (id idea' : string) (w : World) : World :=
  match list_find (joined (Locations w) idea' id) (Suggestions w) with
  | Some (i, g) =>
      mkWorld (Locations w) (alter (set_votes (f (votes g))) i (Suggestions w))
              (issued w) (console w) (streams w)
  | None => (console_error TypeError w).2
  end.

(** No Suggestion points to a Location that is not in the store. *)
Definition referenced (w : World) : Prop :=
  Forall (λ g, ∀ lid, LocationId g = Some lid → is_Some (Locations w !! lid))
         (Suggestions w).

(** * Properties *)

Ltac run_monad :=
  unfold catch_log, catch, transaction, bind, ret, throw, console_error,
    Location_findOne, Location_create, Location_save, Location_destroy,
    Suggestion_findOne, Suggestion_save, Suggestion_findOrCreate,
    open_stream, number_or_undefined, bool_or_undefined; simpl.

(** ** Numbers *)

(** Up to 2^53 in magnitude, an integer is its own Number. *)
Lemma round64_exact z : Z.abs z ≤ 2 ^ 53 → round64 z = z.
Proof.
  intros Hz. unfold round64.
  destruct (Z.abs z <? 2 ^ 53) eqn:Hlt; [done|].
  apply Z.ltb_ge in Hlt.
  assert (z = 2 ^ 53 ∨ z = - 2 ^ 53) as [-> | ->] by lia; reflexivity.
Qed.

(** On the safe integers, the magnitudes below 2^53, [n++] adds one and
    [n--] subtracts one. *)
Lemma js_incr_safe v : Z.abs v < 2 ^ 53 → js_incr v = v + 1.
Proof.
  intros Hv. unfold js_incr.
  rewrite (round64_exact v) by lia. apply round64_exact. lia.
Qed.

Lemma js_decr_safe v : Z.abs v < 2 ^ 53 → js_decr v = v - 1.
Proof.
  intros Hv. unfold js_decr.
  rewrite (round64_exact v) by lia. apply round64_exact. lia.
Qed.

(** ** Lists of rows *)

Lemma keys_cons g rows :
  keys (g :: rows) = match key g with Some k => k :: keys rows | None => keys rows end.
Proof. reflexivity. Qed.

Lemma keys_app rows1 rows2 : keys (rows1 ++ rows2) = keys rows1 ++ keys rows2.
Proof. unfold keys. apply omap_app. Qed.

Lemma key_keyed g idea' lid : key g = Some (idea', lid) ↔ keyed idea' lid g.
Proof.
  unfold key, keyed. destruct g as [i [l|] v]; simpl; split.
  - intros [= -> ->]. done.
  - intros [-> [= ->]]. done.
  - discriminate.
  - intros [_ [=]].
Qed.

Lemma elem_of_keys idea' lid rows :
  (idea', lid) ∈ keys rows ↔ ∃ g, g ∈ rows ∧ keyed idea' lid g.
Proof.
  unfold keys. rewrite list_elem_of_omap.
  split; intros (g & Hin & Hk); exists g; split; auto; by apply key_keyed.
Qed.

Lemma keys_alter_votes n i rows : keys (alter (set_votes n) i rows) = keys rows.
Proof.
  revert i. induction rows as [|g rows IH]; intros [|i]; try done.
  change (alter (set_votes n) (S i) (g :: rows)) with (g :: alter (set_votes n) i rows).
  rewrite !keys_cons, IH. reflexivity.
Qed.

Lemma joined_keyed locs idea' id g : joined locs idea' id g → keyed idea' id g.
Proof. intros (? & ? & _). by split. Qed.

(** Under the invariant, a stored row with the wanted pair is the one that
    a lookup by that pair returns. *)
Lemma unique_find_keyed idea' lid rows i g :
  unique_pairs rows → rows !! i = Some g → keyed idea' lid g →
  list_find (keyed idea' lid) rows = Some (i, g).
Proof.
  unfold unique_pairs. revert i.
  induction rows as [|h rows IH]; intros i Hnd Hi Hg; [done|].
  rewrite keys_cons in Hnd. cbn [list_find].
  destruct i as [|i]; simpl in Hi.
  - injection Hi as ->. by rewrite decide_True.
  - destruct (decide (keyed idea' lid h)) as [Hh|Hh].
    + apply key_keyed in Hh. rewrite Hh in Hnd.
      apply NoDup_cons in Hnd as [Hnot _]. exfalso. apply Hnot.
      apply elem_of_keys. exists g. split; [|done].
      apply list_elem_of_lookup. eauto.
    + assert (NoDup (keys rows)) as Hnd'.
      { destruct (key h); [by apply NoDup_cons in Hnd as [_ ?]|done]. }
      rewrite (IH i Hnd' Hi Hg). reflexivity.
Qed.

Lemma list_find_joined_keyed locs idea' id rows i g :
  is_Some (locs !! id) →
  list_find (keyed idea' id) rows = Some (i, g) →
  list_find (joined locs idea' id) rows = Some (i, g).
Proof.
  intros Hl. rewrite !list_find_Some. intros (Hi & Hk & Hlt).
  split; [done|]. split; [by destruct Hk|].
  intros j y Hj Hji Hy. eapply Hlt; eauto using joined_keyed.
Qed.

Lemma unique_find_joined locs idea' id rows i g :
  unique_pairs rows → rows !! i = Some g → joined locs idea' id g →
  list_find (joined locs idea' id) rows = Some (i, g).
Proof.
  intros Hu Hi Hj. apply list_find_joined_keyed; [apply Hj|].
  eapply unique_find_keyed; eauto using joined_keyed.
Qed.

Lemma alter_twice_at {A} (f h : A → A) (rows : list A) i x :
  rows !! i = Some x → f (h x) = x → alter f i (alter h i rows) = rows.
Proof.
  intros Hi Hf. apply list_eq. intros j.
  destruct (decide (i = j)) as [<-|Hne].
  - rewrite !list_lookup_alter_eq, Hi. simpl. by rewrite Hf.
  - by rewrite !list_lookup_alter_ne.
Qed.

(** After the update of [votes] the same lookup returns the same position. *)
Lemma list_find_joined_alter locs idea' id rows i g n :
  list_find (joined locs idea' id) rows = Some (i, g) →
  list_find (joined locs idea' id) (alter (set_votes n) i rows)
  = Some (i, set_votes n g).
Proof.
  rewrite !list_find_Some. intros (Hi & Hg & Hlt).
  split; [by rewrite list_lookup_alter_eq, Hi|]. split; [exact Hg|].
  intros j y Hj Hji. rewrite list_lookup_alter_ne in Hj by lia. eauto.
Qed.

(** ** What each resolver computes *)

Lemma upVote_found w id idea' i g :
  list_find (joined (Locations w) idea' id) (Suggestions w) = Some (i, g) →
  upVote id idea' w
  = (Normal (JNumber (js_incr (votes g))),
     mkWorld (Locations w) (alter (set_votes (js_incr (votes g))) i (Suggestions w))
             (issued w) (console w) (streams w)).
Proof. intros H. unfold upVote. run_monad. by rewrite H. Qed.

Lemma downVote_found w id idea' i g :
  list_find (joined (Locations w) idea' id) (Suggestions w) = Some (i, g) →
  downVote id idea' w
  = (Normal (JNumber (js_decr (votes g))),
     mkWorld (Locations w) (alter (set_votes (js_decr (votes g))) i (Suggestions w))
             (issued w) (console w) (streams w)).
Proof. intros H. unfold downVote. run_monad. by rewrite H. Qed.

Lemma upVote_missing w id idea' :
  list_find (joined (Locations w) idea' id) (Suggestions w) = None →
  upVote id idea' w
  = (Normal undefined,
     mkWorld (Locations w) (Suggestions w) (issued w)
             (console w ++ [TypeError]) (streams w)).
Proof. intros H. unfold upVote. run_monad. by rewrite H. Qed.

Lemma downVote_missing w id idea' :
  list_find (joined (Locations w) idea' id) (Suggestions w) = None →
  downVote id idea' w
  = (Normal undefined,
     mkWorld (Locations w) (Suggestions w) (issued w)
             (console w ++ [TypeError]) (streams w)).
Proof. intros H. unfold downVote. run_monad. by rewrite H. Qed.

Lemma approveLocation_found w id l :
  Locations w !! id = Some l →
  approveLocation id w
  = (Normal (JBool (negb (approved l))),
     mkWorld (alter (set_approved (negb (approved l))) id (Locations w))
             (Suggestions w) (issued w) (console w) (streams w)).
Proof. intros H. unfold approveLocation. run_monad. by rewrite H. Qed.

Lemma approveLocation_missing w id :
  Locations w !! id = None →
  approveLocation id w
  = (Normal undefined,
     mkWorld (Locations w) (Suggestions w) (issued w)
             (console w ++ [TypeError]) (streams w)).
Proof. intros H. unfold approveLocation. run_monad. by rewrite H. Qed.

Lemma rejectLocation_found p w id l :
  Locations w !! id = Some l →
  rejectLocation p id w
  = (Normal (JBool (approved l)),
     mkWorld (delete id (Locations w)) (orphan p id (Suggestions w))
             (issued w) (console w) (streams w)).
Proof. intros H. unfold rejectLocation. run_monad. by rewrite H. Qed.

Lemma rejectLocation_missing p w id :
  Locations w !! id = None →
  rejectLocation p id w
  = (Normal undefined,
     mkWorld (Locations w) (Suggestions w) (issued w)
             (console w ++ [TypeError]) (streams w)).
Proof. intros H. unfold rejectLocation. run_monad. by rewrite H. Qed.

Lemma addIdea_blank_id w id idea' :
  blank id = true →
  addIdea id idea' w = (Abrupt (Thrown "Location ID can't be empty string"), w).
Proof. intros H. unfold addIdea. by rewrite H. Qed.

Lemma addIdea_blank_idea w id idea' :
  blank id = false → blank idea' = true →
  addIdea id idea' w = (Abrupt (Thrown "Idea can't be empty string"), w).
Proof. intros H1 H2. unfold addIdea. by rewrite H1, H2. Qed.

Lemma addIdea_no_location w id idea' :
  blank id = false → blank idea' = false → Locations w !! id = None →
  addIdea id idea' w
  = (Abrupt TypeError,
     mkWorld (Locations w) (Suggestions w) (issued w)
             (console w ++ [TypeError]) (streams w)).
Proof. intros H1 H2 H. unfold addIdea. rewrite H1, H2. run_monad. by rewrite H. Qed.

Lemma addIdea_existing w id idea' l i g :
  blank id = false → blank idea' = false → Locations w !! id = Some l →
  list_find (keyed idea' id) (Suggestions w) = Some (i, g) →
  addIdea id idea' w = (Normal (JBool false), w).
Proof.
  intros H1 H2 H Hf. unfold addIdea. rewrite H1, H2. run_monad.
  by rewrite H; simpl; rewrite Hf.
Qed.

Lemma addIdea_new w id idea' l :
  blank id = false → blank idea' = false → Locations w !! id = Some l →
  list_find (keyed idea' id) (Suggestions w) = None →
  addIdea id idea' w
  = (Normal (JBool true),
     mkWorld (Locations w) (Suggestions w ++ [mkSuggestion idea' (Some id) 0])
             (issued w) (console w) (streams w)).
Proof.
  intros H1 H2 H Hf. unfold addIdea. rewrite H1, H2. run_monad.
  by rewrite H; simpl; rewrite Hf.
Qed.

Lemma addLocation_blank ext newid addr photo w :
  blank addr = true →
  addLocation ext newid addr photo w
  = (Abrupt (Thrown "Address can't be empty string"), w).
Proof. intros H. unfold addLocation. by rewrite H. Qed.

Lemma addLocation_not_image ext newid addr photo w :
  blank addr = false → startsWith (mimetype photo) "image" = false →
  addLocation ext newid addr photo w
  = (Abrupt (Thrown "The uploaded file has to be an image"),
     mkWorld (<[newid := mkLocation addr None false]> (Locations w))
             (Suggestions w) ({[newid]} ∪ issued w) (console w) (streams w)).
Proof. intros H1 H2. unfold addLocation. rewrite H1. run_monad. by rewrite H2. Qed.

Lemma addLocation_image ext newid addr photo w :
  blank addr = false → startsWith (mimetype photo) "image" = true →
  addLocation ext newid addr photo w
  = (Normal (JBool true),
     mkWorld (<[newid := mkLocation addr None false]> (Locations w))
             (Suggestions w) ({[newid]} ∪ issued w) (console w)
             (streams w ++ [stream_of ext newid photo])).
Proof. intros H1 H2. unfold addLocation. rewrite H1. run_monad. by rewrite H2. Qed.

(** ** Votes *)

(** A vote changes no row other than the one its join selects. *)
Lemma upVote_frame w id idea' j g :
  Suggestions w !! j = Some g → ¬ joined (Locations w) idea' id g →
  Suggestions (upVote id idea' w).2 !! j = Some g.
Proof.
  intros Hj Hn.
  destruct (list_find (joined (Locations w) idea' id) (Suggestions w))
    as [[i g0]|] eqn:Hf.
  - rewrite (upVote_found _ _ _ _ _ Hf). simpl.
    apply list_find_Some in Hf as (Hi & Hg0 & _).
    rewrite list_lookup_alter_ne; [done|]. intros ->. congruence.
  - by rewrite (upVote_missing _ _ _ Hf).
Qed.

Lemma downVote_frame w id idea' j g :
  Suggestions w !! j = Some g → ¬ joined (Locations w) idea' id g →
  Suggestions (downVote id idea' w).2 !! j = Some g.
Proof.
  intros Hj Hn.
  destruct (list_find (joined (Locations w) idea' id) (Suggestions w))
    as [[i g0]|] eqn:Hf.
  - rewrite (downVote_found _ _ _ _ _ Hf). simpl.
    apply list_find_Some in Hf as (Hi & Hg0 & _).
    rewrite list_lookup_alter_ne; [done|]. intros ->. congruence.
  - by rewrite (downVote_missing _ _ _ Hf).
Qed.

(** C1, as stated, fails: at 2^53 votes the increment of the Number is
    rounded back, so [upVote] returns 2^53 again and the stored count does
    not move. *)
Lemma upVote_at_2_53 :
  Suggestions crowded_world !! 0%nat = Some (mkSuggestion "cafe" (Some "1") (2 ^ 53))
  ∧ joined (Locations crowded_world) "cafe" "1" (mkSuggestion "cafe" (Some "1") (2 ^ 53))
  ∧ upVote "1" "cafe" crowded_world = (Normal (JNumber (2 ^ 53)), crowded_world)
  ∧ 2 ^ 53 ≠ 2 ^ 53 + 1.
Proof.
  split; [reflexivity|]. split.
  { split; [reflexivity|]. split; [reflexivity|]. by eexists. }
  split; [reflexivity|]. discriminate.
Qed.

(** C1, amended.  In a store that satisfies the uniqueness invariant of
    the data model, for every stored Suggestion [g] that the pair (idea,
    Location identifier) selects and whose count is a safe integer (below
    2^53 in magnitude), [upVote] returns [votes g + 1] and [downVote]
    returns [votes g - 1], the stored row then holds that count, and every
    other row is as it was. *)
Theorem vote_steps_by_one w id idea' i g :
  unique_pairs (Suggestions w) →
  Suggestions w !! i = Some g →
  joined (Locations w) idea' id g →
  Z.abs (votes g) < 2 ^ 53 →
  (∃ w', upVote id idea' w = (Normal (JNumber (votes g + 1)), w')
         ∧ Suggestions w' !! i = Some (set_votes (votes g + 1) g)
         ∧ ∀ j, j ≠ i → Suggestions w' !! j = Suggestions w !! j)
  ∧ (∃ w', downVote id idea' w = (Normal (JNumber (votes g - 1)), w')
         ∧ Suggestions w' !! i = Some (set_votes (votes g - 1) g)
         ∧ ∀ j, j ≠ i → Suggestions w' !! j = Suggestions w !! j).
Proof.
  intros Hu Hi Hj Hsafe.
  pose proof (unique_find_joined _ _ _ _ _ _ Hu Hi Hj) as Hf.
  rewrite (upVote_found _ _ _ _ _ Hf), (downVote_found _ _ _ _ _ Hf).
  rewrite (js_incr_safe _ Hsafe), (js_decr_safe _ Hsafe).
  split; eexists; (split; [reflexivity|]); simpl;
    (split; [by rewrite list_lookup_alter_eq, Hi|]);
    intros j Hne; by rewrite list_lookup_alter_ne.
Qed.

Lemma vote_steps_by_one_witness :
  (∃ w', upVote "1" "cafe" sample_world = (Normal (JNumber (3 + 1)), w')
         ∧ Suggestions w' !! 0%nat = Some (mkSuggestion "cafe" (Some "1") (3 + 1))
         ∧ ∀ j, j ≠ 0%nat → Suggestions w' !! j = Suggestions sample_world !! j)
  ∧ (∃ w', downVote "1" "cafe" sample_world = (Normal (JNumber (3 - 1)), w')
         ∧ Suggestions w' !! 0%nat = Some (mkSuggestion "cafe" (Some "1") (3 - 1))
         ∧ ∀ j, j ≠ 0%nat → Suggestions w' !! j = Suggestions sample_world !! j).
Proof.
  apply (vote_steps_by_one sample_world "1" "cafe" 0
           (mkSuggestion "cafe" (Some "1") 3)).
  - apply (bool_decide_unpack _). vm_compute. exact I.
  - reflexivity.
  - split; [reflexivity|]. split; [reflexivity|]. eexists. reflexivity.
  - reflexivity.
Defined.

(** C3.  The lookup of a vote is by the pair (idea, Location identifier):
    every row it changes has that idea and that Location, and of two
    Suggestions with the same idea under distinct Locations X and Y, the
    one under Y is unchanged by [upVote] and by [downVote] issued with the
    identifier of X. *)
Theorem vote_scoped_to_location w X Y idea' ix iy gx gy :
  X ≠ Y →
  Suggestions w !! ix = Some gx → idea gx = idea' → LocationId gx = Some X →
  Suggestions w !! iy = Some gy → idea gy = idea' → LocationId gy = Some Y →
  Suggestions (upVote X idea' w).2 !! iy = Some gy
  ∧ Suggestions (downVote X idea' w).2 !! iy = Some gy
  ∧ ∀ j g, Suggestions w !! j = Some g →
      (Suggestions (upVote X idea' w).2 !! j ≠ Some g
       ∨ Suggestions (downVote X idea' w).2 !! j ≠ Some g) →
      idea g = idea' ∧ LocationId g = Some X.
Proof.
  intros Hne _ _ _ Hy _ HY.
  assert (¬ joined (Locations w) idea' X gy) as Hn.
  { intros (_ & HX & _). congruence. }
  split; [by apply upVote_frame|]. split; [by apply downVote_frame|].
  intros j g Hj Hch.
  destruct (decide (joined (Locations w) idea' X g)) as [(? & ? & _)|Hng]; [done|].
  destruct Hch as [Hch|Hch]; exfalso; apply Hch.
  - by apply upVote_frame.
  - by apply downVote_frame.
Qed.

Lemma vote_scoped_to_location_witness :
  Suggestions (upVote "1" "cafe" sample_world).2 !! 1%nat
    = Some (mkSuggestion "cafe" (Some "2") 5)
  ∧ Suggestions (downVote "1" "cafe" sample_world).2 !! 1%nat
    = Some (mkSuggestion "cafe" (Some "2") 5)
  ∧ ∀ j g, Suggestions sample_world !! j = Some g →
      (Suggestions (upVote "1" "cafe" sample_world).2 !! j ≠ Some g
       ∨ Suggestions (downVote "1" "cafe" sample_world).2 !! j ≠ Some g) →
      idea g = "cafe" ∧ LocationId g = Some "1".
Proof.
  apply (vote_scoped_to_location sample_world "1" "2" "cafe" 0 1
           (mkSuggestion "cafe" (Some "1") 3) (mkSuggestion "cafe" (Some "2") 5));
    try reflexivity.
  discriminate.
Defined.

(** C10, as stated, fails: at 2^53 votes [upVote] leaves the count at
    2^53 and the [downVote] that follows returns 2^53 - 1, which is not the
    count before the two calls. *)
Lemma upVote_downVote_at_2_53 :
  Suggestion_findOne "cafe" "1" crowded_world
  = (Normal (Some (0%nat, mkSuggestion "cafe" (Some "1") (2 ^ 53))), crowded_world)
  ∧ upVote "1" "cafe" crowded_world = (Normal (JNumber (2 ^ 53)), crowded_world)
  ∧ (downVote "1" "cafe" (upVote "1" "cafe" crowded_world).2).1
    = Normal (JNumber (2 ^ 53 - 1))
  ∧ Suggestions (downVote "1" "cafe" (upVote "1" "cafe" crowded_world).2).2
    = [mkSuggestion "cafe" (Some "1") (2 ^ 53 - 1)]
  ∧ 2 ^ 53 - 1 ≠ 2 ^ 53.
Proof.
  split; [reflexivity|]. split; [reflexivity|]. split; [reflexivity|].
  split; [reflexivity|]. discriminate.
Qed.

(** C10, amended.  For the Suggestion that the pair (Location identifier,
    idea) identifies, with a count that is a safe integer (below 2^53 in
    magnitude), [upVote] followed by [downVote] returns the count it had
    before the two calls, and the store is as it was before them. *)
Theorem upVote_downVote_roundtrip w id idea' i g :
  Suggestion_findOne idea' id w = (Normal (Some (i, g)), w) →
  Z.abs (votes g) < 2 ^ 53 →
  ∃ w1, upVote id idea' w = (Normal (JNumber (votes g + 1)), w1)
        ∧ Suggestions w1 !! i = Some (set_votes (votes g + 1) g)
        ∧ downVote id idea' w1 = (Normal (JNumber (votes g)), w).
Proof.
  unfold Suggestion_findOne. intros [= Hf] Hsafe.
  rewrite (upVote_found _ _ _ _ _ Hf), (js_incr_safe _ Hsafe).
  eexists. split; [reflexivity|]. simpl.
  pose proof Hf as (Hi & _)%list_find_Some.
  split; [by rewrite list_lookup_alter_eq, Hi|].
  erewrite downVote_found
    by (simpl; apply list_find_joined_alter; exact Hf).
  simpl.
  assert (js_decr (votes g + 1) = votes g) as ->.
  { unfold js_decr. rewrite (round64_exact (votes g + 1)) by lia.
    rewrite round64_exact by lia. lia. }
  f_equal.
  destruct w as [locs rows iss con str]; simpl in *. f_equal.
  apply alter_twice_at with g; [done|].
  destruct g; reflexivity.
Qed.

Lemma upVote_downVote_roundtrip_witness :
  ∃ w1, upVote "1" "cafe" sample_world = (Normal (JNumber (3 + 1)), w1)
        ∧ Suggestions w1 !! 0%nat = Some (mkSuggestion "cafe" (Some "1") (3 + 1))
        ∧ downVote "1" "cafe" w1 = (Normal (JNumber 3), sample_world).
Proof.
  apply (upVote_downVote_roundtrip sample_world "1" "cafe" 0
           (mkSuggestion "cafe" (Some "1") 3)); reflexivity.
Defined.

(** ** Overlapping votes *)

Lemma interleave_app s1 s2 calls w :
  interleave (s1 ++ s2) calls w
  = interleave s2 (interleave s1 calls w).1 (interleave s1 calls w).2.
Proof.
  revert calls w. induction s1 as [|k s1 IH]; intros calls w; simpl; [done|].
  destruct (calls !! k) as [c|]; [|apply IH].
  destruct (advance c w) as [c' w']. apply IH.
Qed.

(** One call that takes its two steps without another call in between
    does what [upVote] does. *)
Lemma interleave_alone w id idea' :
  ∃ v, upVote id idea' w = (Normal v, (upVote id idea' w).2)
       ∧ interleave [0%nat; 0%nat] [AwaitFindOne id idea'] w
         = ([Resolved v], (upVote id idea' w).2).
Proof.
  simpl.
  destruct (list_find (joined (Locations w) idea' id) (Suggestions w))
    as [[i g]|] eqn:Hf.
  - rewrite (upVote_found _ _ _ _ _ Hf). eauto.
  - rewrite (upVote_missing _ _ _ Hf). eauto.
Qed.

Lemma insert_after_replicate {A} (a : nat) (x y z : A) (l : list A) :
  <[a := x]> (replicate a y ++ z :: l) = replicate a y ++ x :: l.
Proof. induction a as [|a IH]; simpl; [done|]. f_equal. exact IH. Qed.

Lemma lookup_after_replicate {A} (a : nat) (y z : A) (l : list A) :
  (replicate a y ++ z :: l) !! a = Some z.
Proof. induction a as [|a IH]; simpl; [done|]. exact IH. Qed.

Lemma replicate_snoc_app {A} (a : nat) (x : A) (l : list A) :
  replicate a x ++ x :: l = replicate (S a) x ++ l.
Proof. induction a as [|a IH]; simpl; [done|]. f_equal. exact IH. Qed.

(** While the calls only query, the store does not change and every call
    is handed the same row. *)
Lemma interleave_queries id idea' w a b :
  let s := list_find (joined (Locations w) idea' id) (Suggestions w) in
  interleave (seq a b)
    (replicate a (AwaitSave s) ++ replicate b (AwaitFindOne id idea')) w
  = (replicate (a + b) (AwaitSave s), w).
Proof.
  intros s. revert a. induction b as [|b IH]; intros a; simpl.
  - by rewrite app_nil_r, Nat.add_0_r.
  - rewrite lookup_after_replicate. simpl. fold s.
    rewrite insert_after_replicate, replicate_snoc_app, IH.
    by rewrite Nat.add_succ_r.
Qed.

(** When the callbacks then run, each writes the count it computed from
    the row it was handed: the same count every time. *)
Lemma interleave_saves i g gi w a b :
  let n := js_incr (votes g) in
  Suggestions w !! i = Some gi → set_votes n gi = set_votes n g →
  ∃ w', interleave (seq a b)
          (replicate a (Resolved (JNumber n)) ++ replicate b (AwaitSave (Some (i, g)))) w
        = (replicate (a + b) (Resolved (JNumber n)), w')
        ∧ Suggestions w' !! i = Some (if decide (b = 0%nat) then gi else set_votes n g).
Proof.
  intros n. revert a gi w. induction b as [|b IH]; intros a gi w Hi Hgi; simpl.
  - exists w. by rewrite app_nil_r, Nat.add_0_r.
  - rewrite lookup_after_replicate. simpl. fold n.
    rewrite insert_after_replicate, replicate_snoc_app.
    edestruct (IH (S a) (set_votes n g)
                 (mkWorld (Locations w) (alter (set_votes n) i (Suggestions w))
                          (issued w) (console w) (streams w)))
      as (w' & Hrun & Hrow).
    { simpl. by rewrite list_lookup_alter_eq, Hi; simpl; rewrite Hgi. }
    { done. }
    exists w'. rewrite Hrun, Nat.add_succ_r. split; [done|].
    rewrite Hrow. by case_decide.
Qed.

(** C2.  The claim fails on the code.  When [N] calls of [upVote] on one
    Suggestion overlap so that every query is answered before the first
    callback runs, every call computes its count from the same row, returns
    that count and writes it: the stored count is the old one plus 1, not
    plus [N]. *)
Theorem overlapping_upVotes_lose_updates N w id idea' i g :
  (2 ≤ N)%nat →
  list_find (joined (Locations w) idea' id) (Suggestions w) = Some (i, g) →
  Z.abs (votes g) < 2 ^ 53 →
  ∃ w', interleave (seq 0 N ++ seq 0 N) (replicate N (AwaitFindOne id idea')) w
        = (replicate N (Resolved (JNumber (votes g + 1))), w')
        ∧ Suggestions w' !! i = Some (set_votes (votes g + 1) g)
        ∧ votes g + 1 ≠ votes g + Z.of_nat N.
Proof.
  intros HN Hf Hsafe.
  rewrite interleave_app.
  pose proof (interleave_queries id idea' w 0 N) as Hq. simpl in Hq.
  rewrite Hq, Hf. simpl.
  pose proof Hf as (Hi & _)%list_find_Some.
  destruct (interleave_saves i g g w 0 N Hi eq_refl) as (w' & Hrun & Hrow).
  simpl in Hrun. rewrite (js_incr_safe _ Hsafe) in Hrun, Hrow.
  exists w'. split; [done|]. split; [|lia].
  rewrite Hrow. rewrite decide_False by lia. done.
Qed.

Lemma overlapping_upVotes_lose_updates_witness :
  ∃ w', interleave (seq 0 10 ++ seq 0 10)
          (replicate 10 (AwaitFindOne "1" "cafe")) sample_world
        = (replicate 10 (Resolved (JNumber (3 + 1))), w')
        ∧ Suggestions w' !! 0%nat = Some (mkSuggestion "cafe" (Some "1") (3 + 1))
        ∧ 3 + 1 ≠ 3 + Z.of_nat 10.
Proof.
  apply (overlapping_upVotes_lose_updates 10 sample_world "1" "cafe" 0
           (mkSuggestion "cafe" (Some "1") 3)).
  - lia.
  - reflexivity.
  - reflexivity.
Defined.

(** ** Approval *)

Lemma map_alter_twice_at {A} (f h : A → A) (m : gmap string A) i x :
  m !! i = Some x → f (h x) = x → alter f i (alter h i m) = m.
Proof.
  intros Hi Hf. apply map_eq. intros j.
  destruct (decide (i = j)) as [<-|Hne].
  - rewrite !lookup_alter_eq, Hi. simpl. by rewrite Hf.
  - by rewrite !lookup_alter_ne.
Qed.

(** C6.  [approveLocation] is a toggle: for an existing Location one call
    stores and returns the negation of its [approved] flag, and a second
    call stores and returns the original flag again, so that from
    [approved = false] the two calls return true and then false. *)
Theorem approveLocation_toggles w id l :
  Locations w !! id = Some l →
  ∃ w1, approveLocation id w = (Normal (JBool (negb (approved l))), w1)
        ∧ Locations w1 !! id = Some (set_approved (negb (approved l)) l)
        ∧ approveLocation id w1 = (Normal (JBool (approved l)), w)
        ∧ (approved l = false →
           approveLocation id w = (Normal (JBool true), w1)
           ∧ approveLocation id w1 = (Normal (JBool false), w)).
Proof.
  intros Hl.
  set (w1 := mkWorld (alter (set_approved (negb (approved l))) id (Locations w))
                     (Suggestions w) (issued w) (console w) (streams w)).
  assert (Locations w1 !! id = Some (set_approved (negb (approved l)) l)) as Hl1.
  { simpl. by rewrite lookup_alter_eq, Hl. }
  assert (approveLocation id w1 = (Normal (JBool (approved l)), w)) as Hsecond.
  { rewrite (approveLocation_found _ _ _ Hl1). simpl.
    rewrite negb_involutive. f_equal.
    destruct w as [locs rows iss con str]; simpl in *. f_equal.
    apply map_alter_twice_at with l; [done|].
    destruct l; reflexivity. }
  exists w1. split; [by apply approveLocation_found|].
  split; [done|]. split; [done|].
  intros Hfalse. split.
  - rewrite (approveLocation_found _ _ _ Hl). subst w1. by rewrite Hfalse.
  - by rewrite Hsecond, Hfalse.
Qed.

Lemma approveLocation_toggles_witness :
  ∃ w1, approveLocation "1" sample_world = (Normal (JBool (negb false)), w1)
        ∧ Locations w1 !! "1" = Some (mkLocation "40-12 Broadway" None (negb false))
        ∧ approveLocation "1" w1 = (Normal (JBool false), sample_world)
        ∧ (false = false →
           approveLocation "1" sample_world = (Normal (JBool true), w1)
           ∧ approveLocation "1" w1 = (Normal (JBool false), sample_world)).
Proof.
  apply (approveLocation_toggles sample_world "1"
           (mkLocation "40-12 Broadway" None false)).
  reflexivity.
Defined.

(** ** Ideas *)

(** C9.  When the identifier matches no Location, the failure inside the
    transaction is printed on the console and no row is created, and the
    resolver then completes abruptly: the destructuring of the undefined
    result of [.catch(console.error)] is a TypeError. *)
Theorem addIdea_unknown_location w id idea' :
  blank id = false → blank idea' = false → Locations w !! id = None →
  ∃ w', addIdea id idea' w = (Abrupt TypeError, w')
        ∧ console w' = console w ++ [TypeError]
        ∧ Suggestions w' = Suggestions w
        ∧ Locations w' = Locations w.
Proof.
  intros H1 H2 H. eexists. split; [by apply addIdea_no_location|]. done.
Qed.

Lemma addIdea_unknown_location_witness :
  ∃ w', addIdea "7" "cafe" sample_world = (Abrupt TypeError, w')
        ∧ console w' = console sample_world ++ [TypeError]
        ∧ Suggestions w' = Suggestions sample_world
        ∧ Locations w' = Locations sample_world.
Proof.
  apply (addIdea_unknown_location sample_world "7" "cafe"); reflexivity.
Defined.

(** C5, as stated, fails.  The idea " " is not empty and the Location "1"
    exists, yet both of two identical calls complete abruptly with the
    validation error, so the second call does not return false.  The same
    holds for an identifier that matches no Location: both calls complete
    abruptly with a TypeError. *)
Lemma addIdea_second_call_not_false :
  (" " ≠ EmptyString
   ∧ is_Some (Locations sample_world !! "1")
   ∧ addIdea "1" " " sample_world
     = (Abrupt (Thrown "Idea can't be empty string"), sample_world)
   ∧ (addIdea "1" " " (addIdea "1" " " sample_world).2).1
     = Abrupt (Thrown "Idea can't be empty string"))
  ∧ ("cafe" ≠ EmptyString
     ∧ (addIdea "7" "cafe" sample_world).1 = Abrupt TypeError
     ∧ (addIdea "7" "cafe" (addIdea "7" "cafe" sample_world).2).1
       = Abrupt TypeError).
Proof.
  split.
  - split; [discriminate|]. split; [by eexists|]. split; reflexivity.
  - split; [discriminate|]. split; reflexivity.
Qed.

Lemma list_find_keyed_None idea' lid rows :
  list_find (keyed idea' lid) rows = None ↔ (idea', lid) ∉ keys rows.
Proof.
  rewrite list_find_None, elem_of_keys, Forall_forall. split.
  - intros H (g & Hin & Hk). by apply (H g).
  - intros H g Hin Hk. apply H. eauto.
Qed.

(** [addIdea] keeps the uniqueness invariant, whatever its arguments. *)
Lemma addIdea_unique_pairs w id idea' :
  unique_pairs (Suggestions w) → unique_pairs (Suggestions (addIdea id idea' w).2).
Proof.
  intros Hu. destruct (blank id) eqn:H1; [by rewrite addIdea_blank_id|].
  destruct (blank idea') eqn:H2; [by rewrite addIdea_blank_idea|].
  destruct (Locations w !! id) as [l|] eqn:Hl; [|by rewrite addIdea_no_location].
  destruct (list_find (keyed idea' id) (Suggestions w)) as [[i g]|] eqn:Hf.
  - by erewrite addIdea_existing.
  - erewrite addIdea_new by done. simpl. unfold unique_pairs.
    rewrite keys_app. apply NoDup_app. split; [done|].
    split; [|apply NoDup_singleton].
    intros k Hk. simpl. rewrite list_elem_of_singleton. intros ->.
    by apply list_find_keyed_None in Hf.
Qed.

(** C5, amended.  For the identifier of an existing Location and an idea,
    neither of them empty or white space only, [addIdea] keeps the pairs
    (idea, LocationId) unique; it returns true exactly when no row had the
    pair, and then appends one row with [votes = 0]; it returns false
    exactly when a row had the pair, and then changes nothing; and a second
    identical call returns false and changes nothing. *)
Theorem addIdea_find_or_create w id idea' l :
  blank id = false → blank idea' = false →
  Locations w !! id = Some l →
  ∃ b w1, addIdea id idea' w = (Normal (JBool b), w1)
          ∧ (unique_pairs (Suggestions w) → unique_pairs (Suggestions w1))
          ∧ (b = true →
             ((idea', id) ∉ keys (Suggestions w))
             ∧ Suggestions w1 = Suggestions w ++ [mkSuggestion idea' (Some id) 0])
          ∧ (b = false → (idea', id) ∈ keys (Suggestions w) ∧ w1 = w)
          ∧ addIdea id idea' w1 = (Normal (JBool false), w1).
Proof.
  intros H1 H2 Hl.
  pose proof (addIdea_unique_pairs w id idea') as Hu'.
  destruct (list_find (keyed idea' id) (Suggestions w)) as [[i g]|] eqn:Hf.
  - exists false, w. rewrite (addIdea_existing _ _ _ _ _ _ H1 H2 Hl Hf) in *.
    split; [done|]. split; [done|]. split; [done|]. split; [|done].
    intros _. split; [|done].
    apply list_find_Some in Hf as (Hi & Hk & _).
    apply elem_of_keys. exists g. split; [|done].
    apply list_elem_of_lookup. eauto.
  - rewrite (addIdea_new _ _ _ _ H1 H2 Hl Hf) in *. simpl in Hu'.
    exists true. eexists. split; [reflexivity|]. simpl.
    split; [done|]. split.
    { intros _. split; [|done]. by apply list_find_keyed_None. }
    split; [done|].
    eapply addIdea_existing with (i := (0 + length (Suggestions w))%nat)
                                 (g := mkSuggestion idea' (Some id) 0); simpl; eauto.
    rewrite list_find_app_r by done. cbn [list_find].
    by rewrite decide_True.
Qed.

Lemma addIdea_find_or_create_witness :
  ∃ b w1, addIdea "2" "park" sample_world = (Normal (JBool b), w1)
          ∧ (unique_pairs (Suggestions sample_world) → unique_pairs (Suggestions w1))
          ∧ (b = true →
             (("park", "2") ∉ keys (Suggestions sample_world))
             ∧ Suggestions w1
               = Suggestions sample_world ++ [mkSuggestion "park" (Some "2") 0])
          ∧ (b = false → ("park", "2") ∈ keys (Suggestions sample_world)
                         ∧ w1 = sample_world)
          ∧ addIdea "2" "park" w1 = (Normal (JBool false), w1).
Proof.
  apply (addIdea_find_or_create sample_world "2" "park"
           (mkLocation "29-10 Broadway" None true)); reflexivity.
Defined.

(** ** Submission *)

(** C8, as stated, fails, in two ways.  The address " " is not empty and
    the photo is not an image, yet the call fails on the address check,
    before any row is created, and leaves the store as it was.  And the
    declared type "imagery/pdf" is not an image type, yet it starts with
    "image": the call passes the photo check, returns true and opens the
    write stream of the object "3.false". *)
Lemma addLocation_not_as_claimed :
  (" " ≠ EmptyString
   ∧ startsWith "text/plain" "image" = false
   ∧ ("3" ∉ issued sample_world)
   ∧ addLocation sample_extension "3" " "
       (mkUpload "notes.txt" "text/plain" "hello") sample_world
     = (Abrupt (Thrown "Address can't be empty string"), sample_world)
   ∧ Locations sample_world !! "3" = None)
  ∧ ("32-13 Broadway" ≠ EmptyString
     ∧ (addLocation sample_extension "3" "32-13 Broadway"
          (mkUpload "plan.pdf" "imagery/pdf" "PDF") sample_world).1
       = Normal (JBool true)
     ∧ streams (addLocation sample_extension "3" "32-13 Broadway"
                  (mkUpload "plan.pdf" "imagery/pdf" "PDF") sample_world).2
       = [mkStream "3" "3.false" "imagery/pdf" "PDF"]).
Proof.
  split.
  - split; [discriminate|]. split; [reflexivity|].
    split; [apply (bool_decide_unpack _); vm_compute; exact I|].
    split; reflexivity.
  - split; [discriminate|]. split; reflexivity.
Qed.

(** C8, amended.  For an address that is not empty or white space only and
    a photo whose declared MIME type does not start with "image",
    [addLocation] fails with the validation error of the photo after the
    row has been created: the store then holds a new Location with that
    address, [approved = false] and no imageURL, and no upload was
    started. *)
Theorem addLocation_not_image_leaves_row ext newid addr photo w :
  blank addr = false →
  startsWith (mimetype photo) "image" = false →
  Locations w !! newid = None →
  ∃ w', addLocation ext newid addr photo w
        = (Abrupt (Thrown "The uploaded file has to be an image"), w')
        ∧ Locations w' = <[newid := mkLocation addr None false]> (Locations w)
        ∧ Locations w' !! newid = Some (mkLocation addr None false)
        ∧ streams w' = streams w
        ∧ Suggestions w' = Suggestions w.
Proof.
  intros H1 H2 _. eexists. split; [by apply addLocation_not_image|]. simpl.
  split; [done|]. split; [apply lookup_insert_eq|]. done.
Qed.

Lemma addLocation_not_image_leaves_row_witness :
  ∃ w', addLocation sample_extension "3" "32-13 Broadway"
          (mkUpload "notes.txt" "text/plain" "hello") sample_world
        = (Abrupt (Thrown "The uploaded file has to be an image"), w')
        ∧ Locations w'
          = <["3" := mkLocation "32-13 Broadway" None false]> (Locations sample_world)
        ∧ Locations w' !! "3" = Some (mkLocation "32-13 Broadway" None false)
        ∧ streams w' = streams sample_world
        ∧ Suggestions w' = Suggestions sample_world.
Proof.
  apply (addLocation_not_image_leaves_row sample_extension "3" "32-13 Broadway"
           (mkUpload "notes.txt" "text/plain" "hello") sample_world);
    reflexivity.
Defined.

(** ** Runs of the server *)

Lemma addIdea_tables w id idea' :
  Locations (addIdea id idea' w).2 = Locations w
  ∧ issued (addIdea id idea' w).2 = issued w
  ∧ streams (addIdea id idea' w).2 = streams w.
Proof.
  destruct (blank id) eqn:H1; [by rewrite addIdea_blank_id|].
  destruct (blank idea') eqn:H2; [by rewrite addIdea_blank_idea|].
  destruct (Locations w !! id) as [l|] eqn:Hl; [|by rewrite addIdea_no_location].
  destruct (list_find (keyed idea' id) (Suggestions w)) as [[i g]|] eqn:Hf.
  - by erewrite addIdea_existing.
  - by erewrite addIdea_new.
Qed.

Lemma upVote_tables w id idea' :
  Locations (upVote id idea' w).2 = Locations w
  ∧ issued (upVote id idea' w).2 = issued w
  ∧ streams (upVote id idea' w).2 = streams w
  ∧ keys (Suggestions (upVote id idea' w).2) = keys (Suggestions w).
Proof.
  destruct (list_find (joined (Locations w) idea' id) (Suggestions w))
    as [[i g]|] eqn:Hf.
  - rewrite (upVote_found _ _ _ _ _ Hf). simpl. by rewrite keys_alter_votes.
  - by rewrite (upVote_missing _ _ _ Hf).
Qed.

Lemma downVote_tables w id idea' :
  Locations (downVote id idea' w).2 = Locations w
  ∧ issued (downVote id idea' w).2 = issued w
  ∧ streams (downVote id idea' w).2 = streams w
  ∧ keys (Suggestions (downVote id idea' w).2) = keys (Suggestions w).
Proof.
  destruct (list_find (joined (Locations w) idea' id) (Suggestions w))
    as [[i g]|] eqn:Hf.
  - rewrite (downVote_found _ _ _ _ _ Hf). simpl. by rewrite keys_alter_votes.
  - by rewrite (downVote_missing _ _ _ Hf).
Qed.

(** What one event does to a row of Locations: nothing, or the row is
    created, toggled, destroyed, or given its imageURL by [finish]. *)
Lemma fire_Locations p ext e w c w' id :
  fire p ext e w = Some (c, w') →
  issued w ⊆ issued w'
  ∧ (Locations w' !! id = Locations w !! id
     ∨ (∃ addr photo, e = AddLocation id addr photo ∧ (id ∉ issued w)
                      ∧ Locations w' !! id = Some (mkLocation addr None false))
     ∨ (e = ApproveLocation id
        ∧ ∃ l, Locations w !! id = Some l
               ∧ Locations w' !! id = Some (set_approved (negb (approved l)) l))
     ∨ (e = RejectLocation id ∧ Locations w' !! id = None)
     ∨ (∃ k st l, e = Finish k ∧ streams w !! k = Some st
                  ∧ stream_location st = id
                  ∧ Locations w !! id = Some l
                  ∧ Locations w' !! id
                    = Some (set_imageURL (public_url (stream_file st)) l))).
Proof.
  destruct e as [newid addr photo|i a|i a|i a|i|i|k|k err]; simpl; intros H.
  - case_decide as Hfresh; [done|]. injection H as H.
    destruct (blank addr) eqn:H1.
    { rewrite addLocation_blank in H by done. injection H as _ <-. auto. }
    assert (Locations w' = <[newid := mkLocation addr None false]> (Locations w)
            ∧ issued w' = {[newid]} ∪ issued w) as [HL HI].
    { destruct (startsWith (mimetype photo) "image") eqn:H2.
      - rewrite addLocation_image in H by done. by injection H as _ <-.
      - rewrite addLocation_not_image in H by done. by injection H as _ <-. }
    split; [rewrite HI; apply union_subseteq_r|]. rewrite HL.
    destruct (decide (newid = id)) as [->|Hne].
    + right. left. exists addr, photo. by rewrite lookup_insert_eq.
    + left. by rewrite lookup_insert_ne.
  - injection H as H. destruct (addIdea_tables w i a) as (HL & HI & _).
    rewrite H in HL, HI. simpl in *. rewrite HL, HI. auto.
  - injection H as H. destruct (upVote_tables w i a) as (HL & HI & _).
    rewrite H in HL, HI. simpl in *. rewrite HL, HI. auto.
  - injection H as H. destruct (downVote_tables w i a) as (HL & HI & _).
    rewrite H in HL, HI. simpl in *. rewrite HL, HI. auto.
  - injection H as H. destruct (Locations w !! i) as [l|] eqn:Hl.
    + rewrite (approveLocation_found _ _ _ Hl) in H. injection H as _ <-. simpl.
      split; [done|]. destruct (decide (i = id)) as [->|Hne].
      * right. right. left. split; [done|]. exists l.
        by rewrite lookup_alter_eq, Hl.
      * left. by rewrite lookup_alter_ne.
    + rewrite (approveLocation_missing _ _ Hl) in H. injection H as _ <-. auto.
  - injection H as H. destruct (Locations w !! i) as [l|] eqn:Hl.
    + rewrite (rejectLocation_found _ _ _ _ Hl) in H. injection H as _ <-. simpl.
      split; [done|]. destruct (decide (i = id)) as [->|Hne].
      * right. right. right. left. by rewrite lookup_delete_eq.
      * left. by rewrite lookup_delete_ne.
    + rewrite (rejectLocation_missing _ _ _ Hl) in H. injection H as _ <-. auto.
  - destruct (streams w !! k) as [st|] eqn:Hst; [|done]. simpl in H.
    injection H as _ <-. simpl. split; [done|].
    destruct (decide (stream_location st = id)) as [<-|Hne].
    + destruct (Locations w !! stream_location st) as [l|] eqn:Hl.
      * right. right. right. right. exists k, st, l.
        by rewrite lookup_alter_eq, Hl.
      * left. by rewrite lookup_alter_eq, Hl.
    + left. by rewrite lookup_alter_ne.
  - destruct (streams w !! k) as [st|] eqn:Hst; [|done]. simpl in H.
    injection H as _ <-. simpl. auto.
Qed.

(** ** Rejection *)

(** Once destroyed, a Location stays absent: its identifier has been
    generated, so no later creation gets it again. *)
Lemma fire_stays_absent p ext e w c w' id :
  fire p ext e w = Some (c, w') →
  Locations w !! id = None → id ∈ issued w →
  Locations w' !! id = None ∧ id ∈ issued w'.
Proof.
  intros H Hnone Hiss.
  destruct (fire_Locations _ _ _ _ _ _ id H) as [Hsub Hrow].
  split; [|by apply (elem_of_subseteq (issued w) (issued w'))].
  destruct Hrow as [Heq|[(addr & photo & _ & Hfresh & _)|[(_ & l & Hl & _)
    |[(_ & Hgone)|(k & st & l & _ & _ & _ & Hl & _)]]]]; congruence.
Qed.

Lemma run_stays_absent p ext es w w' id :
  run p ext es w = Some w' →
  Locations w !! id = None → id ∈ issued w →
  Locations w' !! id = None.
Proof.
  revert w. induction es as [|e es IH]; simpl; intros w H Hnone Hiss.
  - by injection H as <-.
  - destruct (fire p ext e w) as [[c w1]|] eqn:Hfire; [|done].
    destruct (fire_stays_absent _ _ _ _ _ _ _ Hfire Hnone Hiss).
    eauto.
Qed.

Lemma location_None id w : location id w = None ↔ Locations w !! id = None.
Proof. unfold location. by rewrite fmap_None. Qed.

(** C7.  For an existing Location, [rejectLocation] destroys the row and
    returns the [approved] value it read before, and the query [location]
    with that identifier returns null right after the call and after every
    later sequence of events. *)
Theorem rejectLocation_destroys p ext w id l :
  Locations w !! id = Some l → id ∈ issued w →
  ∃ w', rejectLocation p id w = (Normal (JBool (approved l)), w')
        ∧ Locations w' = delete id (Locations w)
        ∧ location id w' = None
        ∧ ∀ es w'', run p ext es w' = Some w'' → location id w'' = None.
Proof.
  intros Hl Hiss. eexists. split; [by apply rejectLocation_found|]. simpl.
  split; [done|]. split.
  - apply location_None. simpl. apply lookup_delete_eq.
  - intros es w'' Hrun. apply location_None.
    eapply run_stays_absent; [exact Hrun| |done].
    simpl. apply lookup_delete_eq.
Qed.

Lemma rejectLocation_destroys_witness :
  ∃ w', rejectLocation SetNull "2" sample_world = (Normal (JBool true), w')
        ∧ Locations w' = delete "2" (Locations sample_world)
        ∧ location "2" w' = None
        ∧ ∀ es w'', run SetNull sample_extension es w' = Some w'' →
                    location "2" w'' = None.
Proof.
  apply (rejectLocation_destroys SetNull sample_extension sample_world "2"
           (mkLocation "29-10 Broadway" None true)).
  - reflexivity.
  - apply (bool_decide_unpack _). vm_compute. exact I.
Defined.

(** ** The imageURL of a Location *)

(** An imageURL that a row has after an event was there before, or the
    event is the [finish] of a stream opened for that Location. *)
Lemma fire_imageURL p ext e w c w' id l' u :
  fire p ext e w = Some (c, w') →
  Locations w' !! id = Some l' → imageURL l' = Some u →
  (∃ l, Locations w !! id = Some l ∧ imageURL l = Some u)
  ∨ (∃ k st, e = Finish k ∧ streams w !! k = Some st
             ∧ stream_location st = id ∧ u = public_url (stream_file st)).
Proof.
  intros H Hl' Hu.
  destruct (fire_Locations _ _ _ _ _ _ id H) as [_ Hrow].
  destruct Hrow as [Heq|[(addr & photo & _ & _ & Hnew)|[(_ & l & Hl & Hnew)
    |[(_ & Hgone)|(k & st & l & -> & Hst & Hid & Hl & Hnew)]]]].
  - left. exists l'. by rewrite <- Heq.
  - rewrite Hnew in Hl'. injection Hl' as <-. discriminate.
  - rewrite Hnew in Hl'. injection Hl' as <-. left. eauto.
  - congruence.
  - rewrite Hnew in Hl'. injection Hl' as <-. simpl in Hu.
    injection Hu as <-. right. by exists k, st.
Qed.

(** A stream that is open after an event was open before, or the event is
    the submission that opened it. *)
Lemma fire_streams p ext e w c w' st :
  fire p ext e w = Some (c, w') → st ∈ streams w' →
  st ∈ streams w
  ∨ ∃ addr photo, e = AddLocation (stream_location st) addr photo
                  ∧ st = stream_of ext (stream_location st) photo.
Proof.
  destruct e as [newid addr photo|i a|i a|i a|i|i|k|k err]; simpl; intros H Hst.
  - case_decide; [done|]. injection H as H.
    destruct (blank addr) eqn:H1.
    { rewrite addLocation_blank in H by done. injection H as _ <-. auto. }
    destruct (startsWith (mimetype photo) "image") eqn:H2.
    + rewrite addLocation_image in H by done. injection H as _ <-.
      simpl in Hst. apply elem_of_app in Hst as [?|Hst]; [by left|].
      apply list_elem_of_singleton in Hst as ->. right. by exists addr, photo.
    + rewrite addLocation_not_image in H by done. injection H as _ <-. auto.
  - injection H as H. destruct (addIdea_tables w i a) as (_ & _ & HS).
    rewrite H in HS. simpl in HS. rewrite <- HS. auto.
  - injection H as H. destruct (upVote_tables w i a) as (_ & _ & HS & _).
    rewrite H in HS. simpl in HS. rewrite <- HS. auto.
  - injection H as H. destruct (downVote_tables w i a) as (_ & _ & HS & _).
    rewrite H in HS. simpl in HS. rewrite <- HS. auto.
  - injection H as H. destruct (Locations w !! i) as [l|] eqn:Hl.
    + rewrite (approveLocation_found _ _ _ Hl) in H. injection H as _ <-. auto.
    + rewrite (approveLocation_missing _ _ Hl) in H. injection H as _ <-. auto.
  - injection H as H. destruct (Locations w !! i) as [l|] eqn:Hl.
    + rewrite (rejectLocation_found _ _ _ _ Hl) in H. injection H as _ <-. auto.
    + rewrite (rejectLocation_missing _ _ _ Hl) in H. injection H as _ <-. auto.
  - destruct (streams w !! k) as [st0|]; [|done]. simpl in H.
    injection H as _ <-. simpl in Hst. eauto using list_elem_of_delete_inv.
  - destruct (streams w !! k) as [st0|]; [|done]. simpl in H.
    injection H as _ <-. simpl in Hst. eauto using list_elem_of_delete_inv.
Qed.

Lemma run_streams p ext es w w' st :
  run p ext es w = Some w' → st ∈ streams w' →
  st ∈ streams w
  ∨ ∃ addr photo, AddLocation (stream_location st) addr photo ∈ es
                  ∧ st = stream_of ext (stream_location st) photo.
Proof.
  revert w. induction es as [|e es IH]; simpl; intros w H Hst.
  - injection H as <-. auto.
  - destruct (fire p ext e w) as [[c w1]|] eqn:Hfire; [|done].
    destruct (IH _ H Hst) as [Hst1|(addr & photo & Hin & Heq)].
    + destruct (fire_streams _ _ _ _ _ _ _ Hfire Hst1)
        as [?|(addr & photo & -> & Heq)]; [by left|].
      right. exists addr, photo. split; [apply list_elem_of_here|done].
    + right. exists addr, photo. split; [by apply list_elem_of_further|done].
Qed.

Lemma run_imageURL p ext es w w' id l' u :
  run p ext es w = Some w' →
  Locations w' !! id = Some l' → imageURL l' = Some u →
  (∃ l, Locations w !! id = Some l ∧ imageURL l = Some u)
  ∨ (∃ es1 es2 k w1 st,
       es = es1 ++ Finish k :: es2 ∧ run p ext es1 w = Some w1
       ∧ streams w1 !! k = Some st ∧ stream_location st = id
       ∧ u = public_url (stream_file st)).
Proof.
  revert w. induction es as [|e es IH]; simpl; intros w H Hl' Hu.
  - injection H as <-. left. eauto.
  - destruct (fire p ext e w) as [[c w1]|] eqn:Hfire; [|done].
    destruct (IH _ H Hl' Hu) as [(l1 & Hl1 & Hu1)
      |(es1 & es2 & k & w2 & st & -> & Hrun & Hst & Hid & Hurl)].
    + destruct (fire_imageURL _ _ _ _ _ _ _ _ _ Hfire Hl1 Hu1)
        as [?|(k & st & -> & Hst & Hid & Hurl)]; [by left|].
      right. exists [], es, k, w, st. done.
    + right. exists (e :: es1), es2, k, w2, st. simpl. by rewrite Hfire.
Qed.

(** C4.  In every run that starts with an empty store, a Location has an
    imageURL only if, earlier in the run, the write stream that its
    submission opened for its photo fired [finish], and the imageURL is the
    public URL of the object that stream wrote.  When a write stream fails,
    its error is printed on the console and the table of Locations is left
    as it is, so that a Location submitted with an image whose write fails
    is still in the store, without an imageURL. *)
Theorem imageURL_only_after_finish p ext :
  (∀ es w id l u,
      run p ext es empty_world = Some w →
      Locations w !! id = Some l → imageURL l = Some u →
      ∃ es1 es2 k w1 addr photo,
        es = es1 ++ Finish k :: es2
        ∧ AddLocation id addr photo ∈ es1
        ∧ run p ext es1 empty_world = Some w1
        ∧ streams w1 !! k = Some (stream_of ext id photo)
        ∧ u = public_url (file_name ext id (mimetype photo)))
  ∧ (∀ w k st err,
        streams w !! k = Some st →
        ∃ w', fire p ext (Error k err) w
              = Some (Abrupt (ReferenceError "next"), w')
              ∧ console w' = console w ++ [StreamError err]
              ∧ Locations w' = Locations w)
  ∧ (∀ w newid addr photo err,
        blank addr = false → startsWith (mimetype photo) "image" = true →
        newid ∉ issued w →
        ∃ w', run p ext [AddLocation newid addr photo;
                         Error (length (streams w)) err] w = Some w'
              ∧ Locations w' !! newid = Some (mkLocation addr None false)
              ∧ console w' = console w ++ [StreamError err]).
Proof.
  split; [|split].
  - intros es w id l u Hrun Hl Hu.
    destruct (run_imageURL _ _ _ _ _ _ _ _ Hrun Hl Hu)
      as [(l0 & Hl0 & _)|(es1 & es2 & k & w1 & st & -> & Hrun1 & Hst & <- & ->)].
    { simpl in Hl0. by rewrite lookup_empty in Hl0. }
    assert (st ∈ streams w1) as Hin by (apply list_elem_of_lookup; eauto).
    destruct (run_streams _ _ _ _ _ _ Hrun1 Hin)
      as [Hin0|(addr & photo & Hadd & Heq)].
    { simpl in Hin0. by apply not_elem_of_nil in Hin0. }
    exists es1, es2, k, w1, addr, photo.
    split; [done|]. split; [done|]. split; [done|].
    split; [by rewrite <- Heq|]. by rewrite Heq at 1.
  - intros w k st err Hst. simpl. rewrite Hst. simpl. eauto.
  - intros w newid addr photo err H1 H2 Hfresh. simpl.
    rewrite decide_False by done.
    rewrite (addLocation_image _ _ _ _ _ H1 H2). simpl.
    rewrite lookup_app_r, Nat.sub_diag by done. simpl.
    eexists. split; [reflexivity|]. simpl.
    split; [apply lookup_insert_eq|done].
Qed.

Lemma imageURL_only_after_finish_witness :
  (∃ es1 es2 k w1 addr photo,
      [AddLocation "1" "40-12 Broadway" (mkUpload "a.png" "image/png" "PNG");
       Finish 0] = es1 ++ Finish k :: es2
      ∧ AddLocation "1" addr photo ∈ es1
      ∧ run Cascade sample_extension es1 empty_world = Some w1
      ∧ streams w1 !! k = Some (stream_of sample_extension "1" photo)
      ∧ "https://storage.cloud.google.com/astoriatech-wishlist-images/1.png"
        = public_url (file_name sample_extension "1" (mimetype photo)))
  ∧ (∃ w', fire Cascade sample_extension (Error 0 "socket hang up")
             (mkWorld ∅ [] ∅ [] [mkStream "1" "1.png" "image/png" "PNG"])
           = Some (Abrupt (ReferenceError "next"), w')
           ∧ console w' = [] ++ [StreamError "socket hang up"]
           ∧ Locations w' = ∅)
  ∧ (∃ w', run Cascade sample_extension
             [AddLocation "3" "32-13 Broadway" (mkUpload "a.png" "image/png" "PNG");
              Error (length (streams sample_world)) "socket hang up"]
             sample_world = Some w'
           ∧ Locations w' !! "3" = Some (mkLocation "32-13 Broadway" None false)
           ∧ console w' = console sample_world ++ [StreamError "socket hang up"]).
Proof.
  destruct (imageURL_only_after_finish Cascade sample_extension) as (H1 & H2 & H3).
  split; [|split].
  - apply (H1 _ (mkWorld {[ "1" := mkLocation "40-12 Broadway"
                               (Some "https://storage.cloud.google.com/astoriatech-wishlist-images/1.png")
                               false ]} [] {[ "1" ]} [] [])
              "1" (mkLocation "40-12 Broadway"
                     (Some "https://storage.cloud.google.com/astoriatech-wishlist-images/1.png")
                     false)); reflexivity.
  - apply (H2 (mkWorld ∅ [] ∅ [] [mkStream "1" "1.png" "image/png" "PNG"]) 0%nat
              (mkStream "1" "1.png" "image/png" "PNG")). reflexivity.
  - apply H3; [reflexivity|reflexivity|].
    apply (bool_decide_unpack _). vm_compute. exact I.
Defined.

(** ** The uniqueness invariant in every run *)

Lemma keys_orphan p id rows :
  keys (orphan p id rows)
  = match p with
    | NoAction => keys rows
    | _ => filter (λ k, k.2 ≠ id) (keys rows)
    end.
Proof.
  destruct p; unfold orphan, keys; [done| |].
  - induction rows as [|[i [lid|] v] rows IH]; [done| |]; simpl.
    + destruct (decide (Some lid = Some id)) as [[= ->]|Hne]; simpl.
      * rewrite filter_cons_False by (simpl; tauto). exact IH.
      * rewrite filter_cons_True by (simpl; congruence). f_equal. exact IH.
    + exact IH.
  - induction rows as [|[i [lid|] v] rows IH]; [done| |].
    + destruct (decide (lid = id)) as [->|Hne].
      * rewrite filter_cons_False by (simpl; tauto).
        simpl. rewrite filter_cons_False by (simpl; tauto). exact IH.
      * rewrite filter_cons_True by (simpl; congruence).
        simpl. rewrite filter_cons_True by (simpl; congruence).
        f_equal. exact IH.
    + rewrite filter_cons_True by done. exact IH.
Qed.

Lemma orphan_unique_pairs p id rows :
  unique_pairs rows → unique_pairs (orphan p id rows).
Proof.
  unfold unique_pairs. rewrite keys_orphan.
  destruct p; auto using NoDup_filter.
Qed.

Lemma addLocation_Suggestions ext newid addr photo w :
  Suggestions (addLocation ext newid addr photo w).2 = Suggestions w.
Proof.
  destruct (blank addr) eqn:H1; [by rewrite addLocation_blank|].
  destruct (startsWith (mimetype photo) "image") eqn:H2.
  - by rewrite addLocation_image.
  - by rewrite addLocation_not_image.
Qed.

Lemma fire_unique_pairs p ext e w c w' :
  fire p ext e w = Some (c, w') →
  unique_pairs (Suggestions w) → unique_pairs (Suggestions w').
Proof.
  destruct e as [newid addr photo|i a|i a|i a|i|i|k|k err]; simpl; intros H Hu.
  - case_decide; [done|]. injection H as H.
    pose proof (addLocation_Suggestions ext newid addr photo w) as HS.
    rewrite H in HS. simpl in HS. by rewrite HS.
  - injection H as H. pose proof (addIdea_unique_pairs w i a Hu) as Hu'.
    by rewrite H in Hu'.
  - injection H as H. destruct (upVote_tables w i a) as (_ & _ & _ & HK).
    rewrite H in HK. unfold unique_pairs. simpl in HK. by rewrite HK.
  - injection H as H. destruct (downVote_tables w i a) as (_ & _ & _ & HK).
    rewrite H in HK. unfold unique_pairs. simpl in HK. by rewrite HK.
  - injection H as H. destruct (Locations w !! i) as [l|] eqn:Hl.
    + rewrite (approveLocation_found _ _ _ Hl) in H. by injection H as _ <-.
    + rewrite (approveLocation_missing _ _ Hl) in H. by injection H as _ <-.
  - injection H as H. destruct (Locations w !! i) as [l|] eqn:Hl.
    + rewrite (rejectLocation_found _ _ _ _ Hl) in H. injection H as _ <-.
      simpl. by apply orphan_unique_pairs.
    + rewrite (rejectLocation_missing _ _ _ Hl) in H. by injection H as _ <-.
  - destruct (streams w !! k) as [st|]; [|done]. simpl in H. by injection H as _ <-.
  - destruct (streams w !! k) as [st|]; [|done]. simpl in H. by injection H as _ <-.
Qed.

(** Every world that a run reaches from the empty store satisfies the
    uniqueness invariant. *)
Lemma run_unique_pairs p ext es w w' :
  run p ext es w = Some w' →
  unique_pairs (Suggestions w) → unique_pairs (Suggestions w').
Proof.
  revert w. induction es as [|e es IH]; simpl; intros w H Hu.
  - by injection H as <-.
  - destruct (fire p ext e w) as [[c w1]|] eqn:Hfire; [|done].
    eauto using fire_unique_pairs.
Qed.

Lemma reachable_unique_pairs p ext es w :
  run p ext es empty_world = Some w → unique_pairs (Suggestions w).
Proof. intros H. eapply run_unique_pairs; [exact H|]. apply NoDup_nil_2. Qed.

(** * Further properties of the resolvers *)

(** ** Validation *)

Lemma trimStart_empty s :
  trimStart s = EmptyString ↔ Forall (λ c, is_white c = true) (chars s).
Proof.
  induction s as [|c s IH]; simpl.
  - split; [constructor|done].
  - destruct (is_white c) eqn:Hc.
    + rewrite IH. split.
      * intros H. by constructor.
      * by intros [_ ?]%Forall_cons.
    + split; [done|]. intros [Hc' _]%Forall_cons. congruence.
Qed.

Lemma trimEnd_trimStart_empty s :
  trimEnd (trimStart s) = EmptyString ↔ trimStart s = EmptyString.
Proof.
  split; [|by intros ->].
  induction s as [|c s IH]; simpl; [done|].
  destruct (is_white c) eqn:Hc; [exact IH|].
  simpl. rewrite Hc. by destruct (trimEnd s).
Qed.

(** [s.trim() == ""] holds exactly for the strings made of white space. *)
Lemma blank_white s :
  blank s = true ↔ Forall (λ c, is_white c = true) (chars s).
Proof.
  unfold blank, trim. rewrite String.eqb_eq, trimEnd_trimStart_empty.
  apply trimStart_empty.
Qed.

(** [addLocation] fails on its address check exactly for an address made
    of white space (the empty address included), and then the store is as
    it was: no row, no stream. *)
Theorem addLocation_blank_address ext newid addr photo w :
  addLocation ext newid addr photo w
  = (Abrupt (Thrown "Address can't be empty string"), w)
  ↔ Forall (λ c, is_white c = true) (chars addr).
Proof.
  rewrite <- blank_white. split.
  - intros H. destruct (blank addr) eqn:H1; [done|].
    destruct (startsWith (mimetype photo) "image") eqn:H2.
    + rewrite addLocation_image in H by done. discriminate.
    + rewrite addLocation_not_image in H by done. discriminate.
  - apply addLocation_blank.
Qed.

(** [addIdea] throws a bare string exactly when the identifier or the idea
    is made of white space; the identifier is checked first, and the store
    is not touched. *)
Theorem addIdea_blank_arguments w id idea' :
  (Forall (λ c, is_white c = true) (chars id) →
   addIdea id idea' w
   = (Abrupt (Thrown "Location ID can't be empty string"), w))
  ∧ (¬ Forall (λ c, is_white c = true) (chars id) →
     Forall (λ c, is_white c = true) (chars idea') →
     addIdea id idea' w = (Abrupt (Thrown "Idea can't be empty string"), w))
  ∧ (∀ msg w', addIdea id idea' w = (Abrupt (Thrown msg), w') →
       w' = w
       ∧ (Forall (λ c, is_white c = true) (chars id)
          ∨ Forall (λ c, is_white c = true) (chars idea'))).
Proof.
  rewrite <- !blank_white. split; [|split].
  - apply addIdea_blank_id.
  - intros H1 H2. apply addIdea_blank_idea; [|done]. by destruct (blank id).
  - intros msg w' H.
    destruct (blank id) eqn:H1.
    { rewrite addIdea_blank_id in H by done. injection H as _ <-.
      split; [done|]. left. by apply blank_white. }
    destruct (blank idea') eqn:H2.
    { rewrite addIdea_blank_idea in H by done. injection H as _ <-.
      split; [done|]. right. by apply blank_white. }
    destruct (Locations w !! id) as [l|] eqn:Hl.
    + destruct (list_find (keyed idea' id) (Suggestions w)) as [[i g]|] eqn:Hf.
      * erewrite addIdea_existing in H by done. discriminate.
      * erewrite addIdea_new in H by done. discriminate.
    + rewrite addIdea_no_location in H by done. discriminate.
Qed.

Lemma addIdea_blank_arguments_witness :
  addIdea "  " "cafe" sample_world
  = (Abrupt (Thrown "Location ID can't be empty string"), sample_world)
  ∧ addIdea "1" "" sample_world
    = (Abrupt (Thrown "Idea can't be empty string"), sample_world)
  ∧ (sample_world = sample_world
     ∧ (Forall (λ c, is_white c = true) (chars "1")
        ∨ Forall (λ c, is_white c = true) (chars ""))).
Proof.
  destruct (addIdea_blank_arguments sample_world "  " "cafe") as (H1 & _ & _).
  destruct (addIdea_blank_arguments sample_world "1" "") as (_ & H2 & H3).
  split; [|split].
  - apply H1. repeat constructor.
  - apply H2; [|constructor]. intros [H _]%Forall_cons. discriminate.
  - apply (H3 "Idea can't be empty string"). reflexivity.
Defined.

(** ** A submission with an image *)

Lemma delete_last {A} (l : list A) x : delete (length l) (l ++ [x]) = l.
Proof. induction l as [|y l IH]; simpl; [done|]. by rewrite IH. Qed.

(** A submission with an address that is not blank and an image returns
    true and leaves a Location with [approved = false] and no imageURL;
    when its write stream finishes, the Location gets the public URL of the
    object named after its identifier, the stream is closed and the
    Suggestions are untouched.  An approval that comes between the
    submission and the end of the upload is kept. *)
Theorem addLocation_then_finish p ext w newid addr photo :
  blank addr = false → startsWith (mimetype photo) "image" = true →
  newid ∉ issued w →
  let url := public_url (file_name ext newid (mimetype photo)) in
  (∃ w1, fire p ext (AddLocation newid addr photo) w = Some (Normal (JBool true), w1)
         ∧ Locations w1 = <[newid := mkLocation addr None false]> (Locations w)
         ∧ streams w1 = streams w ++ [stream_of ext newid photo])
  ∧ (∃ w2, run p ext [AddLocation newid addr photo; Finish (length (streams w))] w
           = Some w2
           ∧ Locations w2 !! newid = Some (mkLocation addr (Some url) false)
           ∧ streams w2 = streams w
           ∧ Suggestions w2 = Suggestions w)
  ∧ (∃ w3, run p ext [AddLocation newid addr photo; ApproveLocation newid;
                      Finish (length (streams w))] w = Some w3
           ∧ Locations w3 !! newid = Some (mkLocation addr (Some url) true)).
Proof.
  intros H1 H2 Hfresh url. split; [|split].
  - simpl. rewrite decide_False by done.
    rewrite (addLocation_image _ _ _ _ _ H1 H2). eauto.
  - simpl. rewrite decide_False by done.
    rewrite (addLocation_image _ _ _ _ _ H1 H2). simpl.
    rewrite lookup_app_r, Nat.sub_diag by done. simpl.
    eexists. split; [reflexivity|]. simpl.
    split; [by rewrite lookup_alter_eq, lookup_insert_eq|].
    split; [apply delete_last|done].
  - simpl. rewrite decide_False by done.
    rewrite (addLocation_image _ _ _ _ _ H1 H2). simpl.
    erewrite approveLocation_found by (simpl; apply lookup_insert_eq). simpl.
    rewrite lookup_app_r, Nat.sub_diag by done. simpl.
    eexists. split; [reflexivity|]. simpl.
    by rewrite !lookup_alter_eq, lookup_insert_eq.
Qed.

Lemma addLocation_then_finish_witness :
  let photo := mkUpload "front.png" "image/png" "PNG" in
  let url := public_url (file_name sample_extension "3" (mimetype photo)) in
  (∃ w1, fire Cascade sample_extension (AddLocation "3" "32-13 Broadway" photo)
           sample_world = Some (Normal (JBool true), w1)
         ∧ Locations w1
           = <["3" := mkLocation "32-13 Broadway" None false]> (Locations sample_world)
         ∧ streams w1 = streams sample_world ++ [stream_of sample_extension "3" photo])
  ∧ (∃ w2, run Cascade sample_extension
             [AddLocation "3" "32-13 Broadway" photo;
              Finish (length (streams sample_world))] sample_world = Some w2
           ∧ Locations w2 !! "3" = Some (mkLocation "32-13 Broadway" (Some url) false)
           ∧ streams w2 = streams sample_world
           ∧ Suggestions w2 = Suggestions sample_world)
  ∧ (∃ w3, run Cascade sample_extension
             [AddLocation "3" "32-13 Broadway" photo; ApproveLocation "3";
              Finish (length (streams sample_world))] sample_world = Some w3
           ∧ Locations w3 !! "3" = Some (mkLocation "32-13 Broadway" (Some url) true)).
Proof.
  apply (addLocation_then_finish Cascade sample_extension sample_world "3"
           "32-13 Broadway" (mkUpload "front.png" "image/png" "PNG"));
    [reflexivity|reflexivity|].
  apply (bool_decide_unpack _). vm_compute. exact I.
Defined.

Lemma append_dot_inj (a b x y : string) :
  "."%char ∉ chars a → "."%char ∉ chars b →
  a +:+ "." +:+ x = b +:+ "." +:+ y → a = b.
Proof.
  revert b. induction a as [|c a IH]; intros [|d b] Ha Hb H; simpl in *.
  - done.
  - injection H as <- _. exfalso. apply Hb. apply list_elem_of_here.
  - injection H as -> _. exfalso. apply Ha. apply list_elem_of_here.
  - injection H as -> H. f_equal. apply IH; [| |done].
    + intros Hin. apply Ha. by apply list_elem_of_further.
    + intros Hin. apply Hb. by apply list_elem_of_further.
Qed.

(** The objects of two Locations do not collide: when the identifiers
    contain no dot, distinct identifiers give distinct file names, whatever
    the content types and their extensions are. *)
Theorem file_name_no_collision ext id1 id2 mt1 mt2 :
  "."%char ∉ chars id1 → "."%char ∉ chars id2 →
  id1 ≠ id2 → file_name ext id1 mt1 ≠ file_name ext id2 mt2.
Proof.
  unfold file_name. intros H1 H2 Hne Heq. apply Hne.
  by apply append_dot_inj in Heq.
Qed.

Lemma file_name_no_collision_witness :
  file_name sample_extension "17" "image/png"
  ≠ file_name sample_extension "18" "image/jpeg".
Proof.
  apply (file_name_no_collision sample_extension "17" "18" "image/png" "image/jpeg").
  - apply (bool_decide_unpack _). vm_compute. exact I.
  - apply (bool_decide_unpack _). vm_compute. exact I.
  - discriminate.
Defined.

(** ** The queries *)

Lemma filter_all {A} (l : list A) : filter (λ _ : A, true = true) l = l.
Proof.
  induction l as [|x xs IH]; [done|].
  rewrite filter_cons_True by done. by rewrite IH.
Qed.

Lemma elem_of_findAll q w r :
  r ∈ Location_findAll q w
  ↔ ∃ id l, Locations w !! id = Some l ∧ q l = true ∧ r = included w (id, l).
Proof.
  unfold Location_findAll. rewrite list_elem_of_fmap. split.
  - intros ([id l] & -> & [Hq Hin]%list_elem_of_filter).
    apply elem_of_map_to_list in Hin. by exists id, l.
  - intros (id & l & Hl & Hq & ->). exists (id, l). split; [done|].
    apply list_elem_of_filter. split; [done|]. by apply elem_of_map_to_list.
Qed.

(** Every Location is listed by exactly one of [approvedLocations] and
    [submittedLocations]: together the two lists are a rearrangement of
    [locations], the first holds the approved Locations only and the second
    the others only. *)
Theorem approved_submitted_partition w :
  approvedLocations w ++ submittedLocations w ≡ₚ locations w
  ∧ (∀ r, r ∈ approvedLocations w → approved r.1.2 = true)
  ∧ (∀ r, r ∈ submittedLocations w → approved r.1.2 = false).
Proof.
  split; [|split].
  - unfold approvedLocations, submittedLocations, locations, Location_findAll.
    rewrite <- fmap_app, filter_all. f_equiv.
    rewrite (list_filter_iff (λ x, negb (approved x.2) = true)
                             (λ x, ¬ approved x.2 = true)).
    2:{ intros [id l]; simpl. destruct (approved l); naive_solver. }
    apply filter_app_complement.
  - intros r (id & l & _ & Hq & ->)%elem_of_findAll. done.
  - intros r (id & l & _ & Hq & ->)%elem_of_findAll. simpl.
    by destruct (approved l).
Qed.

(** The query [location] returns the entry that [locations] lists under
    the identifier, and [locations] lists no identifier twice. *)
Theorem location_in_locations w :
  (∀ id r, location id w = Some r ↔ r ∈ locations w ∧ r.1.1 = id)
  ∧ NoDup ((λ r, r.1.1) <$> locations w).
Proof.
  split.
  - intros id r. unfold locations. rewrite elem_of_findAll.
    unfold location, included. rewrite fmap_Some. split.
    + intros (l & Hl & ->). split; [|done]. by exists id, l.
    + intros [(id' & l & Hl & _ & ->) <-]. simpl. eauto.
  - unfold locations, Location_findAll. rewrite <- list_fmap_compose.
    rewrite filter_all.
    apply (NoDup_fst_map_to_list (Locations w)).
Qed.

(** [approveLocation] moves an existing Location between the two lists: a
    submitted one appears among the approved ones and no longer among the
    submitted ones, and an approved one goes back to the submitted ones. *)
Theorem approveLocation_moves w id l :
  Locations w !! id = Some l →
  (approved l = false →
   (∃ r, r ∈ approvedLocations (approveLocation id w).2 ∧ r.1.1 = id)
   ∧ ∀ r, r ∈ submittedLocations (approveLocation id w).2 → r.1.1 ≠ id)
  ∧ (approved l = true →
     (∃ r, r ∈ submittedLocations (approveLocation id w).2 ∧ r.1.1 = id)
     ∧ ∀ r, r ∈ approvedLocations (approveLocation id w).2 → r.1.1 ≠ id).
Proof.
  intros Hl. rewrite (approveLocation_found _ _ _ Hl). simpl.
  set (w1 := mkWorld _ _ _ _ _).
  assert (Locations w1 !! id = Some (set_approved (negb (approved l)) l)) as Hl1.
  { simpl. by rewrite lookup_alter_eq, Hl. }
  split; intros Ha; rewrite Ha in Hl1; simpl in Hl1; split.
  - exists (included w1 (id, set_approved true l)). split; [|done].
    apply elem_of_findAll. by exists id, (set_approved true l).
  - intros r (id' & l' & Hl' & Hq & ->)%elem_of_findAll ?. simpl in *.
    simplify_eq; done.
  - exists (included w1 (id, set_approved false l)). split; [|done].
    apply elem_of_findAll. by exists id, (set_approved false l).
  - intros r (id' & l' & Hl' & Hq & ->)%elem_of_findAll ?. simpl in *.
    simplify_eq; done.
Qed.

Lemma approveLocation_moves_witness :
  (false = false →
   (∃ r, r ∈ approvedLocations (approveLocation "1" sample_world).2 ∧ r.1.1 = "1")
   ∧ ∀ r, r ∈ submittedLocations (approveLocation "1" sample_world).2 → r.1.1 ≠ "1")
  ∧ (false = true →
     (∃ r, r ∈ submittedLocations (approveLocation "1" sample_world).2 ∧ r.1.1 = "1")
     ∧ ∀ r, r ∈ approvedLocations (approveLocation "1" sample_world).2 → r.1.1 ≠ "1").
Proof.
  apply (approveLocation_moves sample_world "1"
           (mkLocation "40-12 Broadway" None false)).
  reflexivity.
Defined.

Lemma filter_orphan_other p id id' rows :
  id' ≠ id →
  filter (λ g, LocationId g = Some id') (orphan p id rows)
  = filter (λ g, LocationId g = Some id') rows.
Proof.
  intros Hne. destruct p; simpl; [done| |].
  - induction rows as [|g rows IH]; [done|]. rewrite fmap_cons.
    destruct (decide (LocationId g = Some id)) as [Hg|Hg].
    + rewrite !filter_cons_False; [done|congruence|simpl; congruence].
    + rewrite !filter_cons. by rewrite IH.
  - rewrite list_filter_filter. apply list_filter_iff.
    intros g. split; [tauto|]. intros Hg. split; [done|]. congruence.
Qed.

(** After [rejectLocation] the list queries show no entry for the
    identifier, and every other Location is returned by [location] with the
    same row and the same Suggestions as before, whatever the store does to
    the Suggestions of the destroyed Location. *)
Theorem rejectLocation_frame p w id l :
  Locations w !! id = Some l →
  (∀ r, r ∈ locations (rejectLocation p id w).2 → r.1.1 ≠ id)
  ∧ (∀ id', id' ≠ id →
       location id' (rejectLocation p id w).2 = location id' w).
Proof.
  intros Hl. rewrite (rejectLocation_found _ _ _ _ Hl). simpl. split.
  - intros r (id' & l' & Hl' & _ & ->)%elem_of_findAll ?. simpl in *.
    simplify_eq. by rewrite lookup_delete_eq in Hl'.
  - intros id' Hne. unfold location. simpl.
    rewrite lookup_delete_ne by done. by rewrite filter_orphan_other.
Qed.

Lemma rejectLocation_frame_witness :
  (∀ r, r ∈ locations (rejectLocation Cascade "2" sample_world).2 → r.1.1 ≠ "2")
  ∧ (∀ id', id' ≠ "2" →
       location id' (rejectLocation Cascade "2" sample_world).2
       = location id' sample_world).
Proof.
  apply (rejectLocation_frame Cascade sample_world "2"
           (mkLocation "29-10 Broadway" None true)).
  reflexivity.
Defined.

(** ** Votes and ideas together *)

Lemma list_find_joined_new locs idea' id rows g :
  (idea', id) ∉ keys rows → joined locs idea' id g →
  list_find (joined locs idea' id) (rows ++ [g]) = Some (length rows, g).
Proof.
  intros Hk Hg. rewrite list_find_app_r.
  - cbn [list_find]. by rewrite decide_True.
  - apply list_find_None, Forall_forall. intros h Hin Hh. apply Hk.
    apply elem_of_keys. exists h. eauto using joined_keyed.
Qed.

Lemma alter_last {A} (f : A → A) (l : list A) x :
  alter f (length l) (l ++ [x]) = l ++ [f x].
Proof. induction l as [|y l IH]; simpl; [done|]. f_equal. exact IH. Qed.

(** A new idea starts at zero votes and is at once open to votes: after
    [addIdea] has created the Suggestion, [upVote] with the same arguments
    returns 1, and [location] lists the idea with one vote after the
    Suggestions the Location already had. *)
Theorem addIdea_then_upVote w id idea' l :
  blank id = false → blank idea' = false →
  Locations w !! id = Some l →
  (idea', id) ∉ keys (Suggestions w) →
  ∃ w1 w2, addIdea id idea' w = (Normal (JBool true), w1)
           ∧ upVote id idea' w1 = (Normal (JNumber 1), w2)
           ∧ location id w2
             = Some ((id, l), filter (λ g, LocationId g = Some id) (Suggestions w)
                              ++ [mkSuggestion idea' (Some id) 1]).
Proof.
  intros H1 H2 Hl Hk.
  pose proof Hk as Hf%list_find_keyed_None.
  rewrite (addIdea_new _ _ _ _ H1 H2 Hl Hf).
  eexists. eexists. split; [reflexivity|].
  erewrite upVote_found.
  2:{ simpl. apply list_find_joined_new; [done|].
      split; [done|]. split; [done|]. by eexists. }
  simpl. split; [reflexivity|].
  unfold location. simpl. rewrite Hl. simpl. do 2 f_equal.
  rewrite alter_last, filter_app. f_equal.
  by rewrite filter_cons_True.
Qed.

Lemma addIdea_then_upVote_witness :
  ∃ w1 w2, addIdea "2" "park" sample_world = (Normal (JBool true), w1)
           ∧ upVote "2" "park" w1 = (Normal (JNumber 1), w2)
           ∧ location "2" w2
             = Some (("2", mkLocation "29-10 Broadway" None true),
                     filter (λ g, LocationId g = Some "2") (Suggestions sample_world)
                     ++ [mkSuggestion "park" (Some "2") 1]).
Proof.
  apply (addIdea_then_upVote sample_world "2" "park"
           (mkLocation "29-10 Broadway" None true)); try reflexivity.
  apply (bool_decide_unpack _). vm_compute. exact I.
Defined.

(** A vote answers undefined exactly when no stored Suggestion has the
    idea under an existing Location with the identifier; then the error is
    printed and nothing else changes. *)
Theorem vote_without_match w id idea' :
  ((∀ g, g ∈ Suggestions w → ¬ joined (Locations w) idea' id g)
   ↔ upVote id idea' w = (Normal undefined, (console_error TypeError w).2))
  ∧ ((∀ g, g ∈ Suggestions w → ¬ joined (Locations w) idea' id g)
     ↔ downVote id idea' w = (Normal undefined, (console_error TypeError w).2)).
Proof.
  rewrite <- Forall_forall, <- list_find_None.
  split; (split; [by (apply upVote_missing || apply downVote_missing)|]);
    intros H;
    destruct (list_find (joined (Locations w) idea' id) (Suggestions w))
      as [[i g]|] eqn:Hf; try done.
  - rewrite (upVote_found _ _ _ _ _ Hf) in H. discriminate.
  - rewrite (downVote_found _ _ _ _ _ Hf) in H. discriminate.
Qed.

(** [approveLocation] and [rejectLocation] answer undefined exactly when
    no Location has the identifier; then the error is printed and nothing
    else changes. *)
Theorem approve_reject_without_location p w id :
  (Locations w !! id = None
   ↔ approveLocation id w = (Normal undefined, (console_error TypeError w).2))
  ∧ (Locations w !! id = None
     ↔ rejectLocation p id w = (Normal undefined, (console_error TypeError w).2)).
Proof.
  split; (split; [by (apply approveLocation_missing || apply rejectLocation_missing)|]);
    intros H; destruct (Locations w !! id) as [l|] eqn:Hl; try done.
  - rewrite (approveLocation_found _ _ _ Hl) in H. discriminate.
  - rewrite (rejectLocation_found _ _ _ _ Hl) in H. discriminate.
Qed.

(** Once a Location is rejected, every later mutation with its identifier
    is refused: votes, approval and a second rejection answer undefined,
    [addIdea] completes abruptly, and none of them changes a table. *)
Theorem mutations_after_reject p ext w id l es w' idea' :
  Locations w !! id = Some l → id ∈ issued w →
  run p ext es (rejectLocation p id w).2 = Some w' →
  upVote id idea' w' = (Normal undefined, (console_error TypeError w').2)
  ∧ downVote id idea' w' = (Normal undefined, (console_error TypeError w').2)
  ∧ approveLocation id w' = (Normal undefined, (console_error TypeError w').2)
  ∧ rejectLocation p id w' = (Normal undefined, (console_error TypeError w').2)
  ∧ ∃ c, addIdea id idea' w' = (Abrupt c, (addIdea id idea' w').2)
         ∧ Suggestions (addIdea id idea' w').2 = Suggestions w'
         ∧ Locations (addIdea id idea' w').2 = Locations w'.
Proof.
  intros Hl Hiss Hrun.
  assert (Locations w' !! id = None) as Hnone.
  { eapply run_stays_absent; [exact Hrun| |].
    - rewrite (rejectLocation_found _ _ _ _ Hl). simpl. apply lookup_delete_eq.
    - by rewrite (rejectLocation_found _ _ _ _ Hl). }
  assert (list_find (joined (Locations w') idea' id) (Suggestions w') = None) as Hf.
  { apply list_find_None, Forall_forall. intros g _ (_ & _ & [? ?]). congruence. }
  split; [by apply upVote_missing|]. split; [by apply downVote_missing|].
  split; [by apply approveLocation_missing|].
  split; [by apply rejectLocation_missing|].
  destruct (blank id) eqn:H1.
  { rewrite addIdea_blank_id by done. eauto. }
  destruct (blank idea') eqn:H2.
  { rewrite addIdea_blank_idea by done. eauto. }
  rewrite addIdea_no_location by done. eauto.
Qed.

Lemma mutations_after_reject_witness :
  let w' := (rejectLocation SetNull "1" sample_world).2 in
  upVote "1" "cafe" w' = (Normal undefined, (console_error TypeError w').2)
  ∧ downVote "1" "cafe" w' = (Normal undefined, (console_error TypeError w').2)
  ∧ approveLocation "1" w' = (Normal undefined, (console_error TypeError w').2)
  ∧ rejectLocation SetNull "1" w' = (Normal undefined, (console_error TypeError w').2)
  ∧ ∃ c, addIdea "1" "cafe" w' = (Abrupt c, (addIdea "1" "cafe" w').2)
         ∧ Suggestions (addIdea "1" "cafe" w').2 = Suggestions w'
         ∧ Locations (addIdea "1" "cafe" w').2 = Locations w'.
Proof.
  apply (mutations_after_reject SetNull sample_extension sample_world "1"
           (mkLocation "40-12 Broadway" None false) []).
  - reflexivity.
  - apply (bool_decide_unpack _). vm_compute. exact I.
  - reflexivity.
Defined.

(** Votes on one Suggestion add up: after upVotes and downVotes on the
    same pair, in any order, the count is the old one plus the number of
    upVotes minus the number of downVotes, as long as the counts stay safe
    integers (the old count and the number of votes together stay below
    2^53); it has no floor. *)
Theorem votes_add_up p ext es w id idea' i g :
  Forall (λ e, e = UpVote id idea' ∨ e = DownVote id idea') es →
  list_find (joined (Locations w) idea' id) (Suggestions w) = Some (i, g) →
  Z.abs (votes g) + Z.of_nat (length es) < 2 ^ 53 →
  ∃ w', run p ext es w = Some w'
        ∧ Suggestions w' !! i
          = Some (set_votes
                    (votes g
                     + Z.of_nat (length (filter (λ e, e = UpVote id idea') es))
                     - Z.of_nat (length (filter (λ e, e = DownVote id idea') es)))
                    g).
Proof.
  intros Hes. revert w g.
  induction Hes as [|e es He _ IH]; intros w g Hf Hsafe.
  - exists w. split; [done|]. apply list_find_Some in Hf as (Hi & _).
    rewrite Hi. f_equal. destruct g; unfold set_votes; simpl. f_equal. lia.
  - rewrite length_cons in Hsafe.
    destruct He as [->| ->]; cbn [run fire].
    + rewrite (upVote_found _ _ _ _ _ Hf), js_incr_safe by lia.
      edestruct (IH (mkWorld (Locations w)
                             (alter (set_votes (votes g + 1)) i (Suggestions w))
                             (issued w) (console w) (streams w))
                    (set_votes (votes g + 1) g)) as (w' & Hrun & Hi).
      { simpl. by apply list_find_joined_alter. }
      { simpl. lia. }
      exists w'. split; [done|]. rewrite Hi. f_equal.
      rewrite filter_cons_True, filter_cons_False by done.
      unfold set_votes; simpl. f_equal. lia.
    + rewrite (downVote_found _ _ _ _ _ Hf), js_decr_safe by lia.
      edestruct (IH (mkWorld (Locations w)
                             (alter (set_votes (votes g - 1)) i (Suggestions w))
                             (issued w) (console w) (streams w))
                    (set_votes (votes g - 1) g)) as (w' & Hrun & Hi).
      { simpl. by apply list_find_joined_alter. }
      { simpl. lia. }
      exists w'. split; [done|]. rewrite Hi. f_equal.
      rewrite filter_cons_False, filter_cons_True by done.
      unfold set_votes; simpl. f_equal. lia.
Qed.

Lemma votes_add_up_witness :
  ∃ w', run NoAction sample_extension
          [DownVote "1" "park"; UpVote "1" "park"; DownVote "1" "park";
           DownVote "1" "park"] sample_world = Some w'
        ∧ Suggestions w' !! 2%nat
          = Some (set_votes
                    (-1 + Z.of_nat (length (filter (λ e, e = UpVote "1" "park")
                                              [DownVote "1" "park"; UpVote "1" "park";
                                               DownVote "1" "park"; DownVote "1" "park"]))
                     - Z.of_nat (length (filter (λ e, e = DownVote "1" "park")
                                           [DownVote "1" "park"; UpVote "1" "park";
                                            DownVote "1" "park"; DownVote "1" "park"])))
                    (mkSuggestion "park" (Some "1") (-1))).
Proof.
  apply (votes_add_up NoAction sample_extension _ sample_world "1" "park" 2
           (mkSuggestion "park" (Some "1") (-1))).
  - apply (bool_decide_unpack _). vm_compute. exact I.
  - reflexivity.
  - reflexivity.
Defined.

(** ** Invariants of every run *)

(** No run breaks the uniqueness of the pairs (idea, LocationId) among
    the Suggestions that have a Location: whatever mutations and stream
    events follow each other, and whatever the store does to the
    Suggestions of a rejected Location, no two rows with the same idea
    and the same Location identifier appear.  (Rows whose LocationId the
    store has set to NULL are outside the invariant: two of them may hold
    the same idea.) *)
Theorem unique_pairs_in_every_run p ext es w w' :
  run p ext es w = Some w' →
  unique_pairs (Suggestions w) → unique_pairs (Suggestions w').
Proof.
  revert w. induction es as [|e es IH]; simpl; intros w H Hu.
  - by injection H as <-.
  - destruct (fire p ext e w) as [[c w1]|] eqn:Hfire; [|done].
    apply (IH w1); [done|]. by eapply fire_unique_pairs.
Qed.

Lemma unique_pairs_in_every_run_witness :
  unique_pairs
    (Suggestions
       (mkWorld (delete "1" (Locations sample_world))
                [mkSuggestion "cafe" None 4;
                 mkSuggestion "cafe" (Some "2") 5;
                 mkSuggestion "park" None (-1);
                 mkSuggestion "park" (Some "2") 0]
                (issued sample_world) [TypeError] [])).
Proof.
  apply (unique_pairs_in_every_run SetNull sample_extension
           [AddIdea "2" "park"; UpVote "1" "cafe"; RejectLocation "1";
            UpVote "1" "cafe"; AddIdea "2" "cafe"] sample_world).
  - reflexivity.
  - apply (bool_decide_unpack _). vm_compute. exact I.
Defined.

Lemma orphan_validated p id rows :
  Forall (λ g, blank (idea g) = false) rows →
  Forall (λ g, blank (idea g) = false) (orphan p id rows).
Proof.
  intros H. destruct p; simpl; [done| |].
  - apply Forall_fmap. eapply Forall_impl; [exact H|].
    intros g Hg. simpl. by case_decide.
  - apply Forall_forall. intros g [_ Hin]%list_elem_of_filter.
    by eapply Forall_forall in H.
Qed.

Lemma fire_validated p ext e w c w' :
  fire p ext e w = Some (c, w') → validated w → validated w'.
Proof.
  unfold validated.
  destruct e as [newid addr photo|i a|i a|i a|i|i|k|k err]; simpl;
    intros H [HL HS].
  - case_decide; [done|]. injection H as H.
    destruct (blank addr) eqn:H1.
    { rewrite addLocation_blank in H by done. by injection H as _ <-. }
    destruct (startsWith (mimetype photo) "image") eqn:H2.
    + rewrite addLocation_image in H by done. injection H as _ <-. simpl.
      split; [by apply map_Forall_insert_2|done].
    + rewrite addLocation_not_image in H by done. injection H as _ <-. simpl.
      split; [by apply map_Forall_insert_2|done].
  - injection H as H.
    destruct (blank i) eqn:H1.
    { rewrite addIdea_blank_id in H by done. by injection H as _ <-. }
    destruct (blank a) eqn:H2.
    { rewrite addIdea_blank_idea in H by done. by injection H as _ <-. }
    destruct (Locations w !! i) as [l|] eqn:Hl.
    + destruct (list_find (keyed a i) (Suggestions w)) as [[j g]|] eqn:Hf.
      * erewrite addIdea_existing in H by done. by injection H as _ <-.
      * erewrite addIdea_new in H by done. injection H as _ <-. simpl.
        split; [done|]. apply Forall_app. split; [done|].
        by apply Forall_singleton.
    + rewrite addIdea_no_location in H by done. by injection H as _ <-.
  - injection H as H.
    destruct (list_find (joined (Locations w) a i) (Suggestions w))
      as [[j g]|] eqn:Hf.
    + rewrite (upVote_found _ _ _ _ _ Hf) in H. injection H as _ <-. simpl.
      split; [done|]. by apply Forall_alter.
    + rewrite (upVote_missing _ _ _ Hf) in H. by injection H as _ <-.
  - injection H as H.
    destruct (list_find (joined (Locations w) a i) (Suggestions w))
      as [[j g]|] eqn:Hf.
    + rewrite (downVote_found _ _ _ _ _ Hf) in H. injection H as _ <-. simpl.
      split; [done|]. by apply Forall_alter.
    + rewrite (downVote_missing _ _ _ Hf) in H. by injection H as _ <-.
  - injection H as H. destruct (Locations w !! i) as [l|] eqn:Hl.
    + rewrite (approveLocation_found _ _ _ Hl) in H. injection H as _ <-. simpl.
      split; [|done]. intros id' l'. rewrite lookup_alter_Some.
      intros [(_ & l0 & Hl0 & ->)|[_ Hl0]]; [by apply (HL id' l0)|by apply (HL id' l')].
    + rewrite (approveLocation_missing _ _ Hl) in H. by injection H as _ <-.
  - injection H as H. destruct (Locations w !! i) as [l|] eqn:Hl.
    + rewrite (rejectLocation_found _ _ _ _ Hl) in H. injection H as _ <-. simpl.
      split; [by apply map_Forall_delete|by apply orphan_validated].
    + rewrite (rejectLocation_missing _ _ _ Hl) in H. by injection H as _ <-.
  - destruct (streams w !! k) as [st|]; [|done]. simpl in H.
    injection H as _ <-. simpl. split; [|done].
    intros id' l'. rewrite lookup_alter_Some.
    intros [(_ & l0 & Hl0 & ->)|[_ Hl0]]; [by apply (HL id' l0)|by apply (HL id' l')].
  - destruct (streams w !! k) as [st|]; [|done]. simpl in H.
    by injection H as _ <-.
Qed.

(** The checks of [addLocation] and [addIdea] are the only doors to the
    store: in a run that starts from a store without blank texts, no
    Location ever has a blank address and no Suggestion a blank idea. *)
Theorem run_validated p ext es w w' :
  run p ext es w = Some w' → validated w → validated w'.
Proof.
  revert w. induction es as [|e es IH]; simpl; intros w H Hv.
  - by injection H as <-.
  - destruct (fire p ext e w) as [[c w1]|] eqn:Hfire; [|done].
    eauto using fire_validated.
Qed.

Lemma run_validated_witness :
  validated
    (mkWorld (<["3" := mkLocation " 1 Main St " None false]> ∅)
             [mkSuggestion "cafe" (Some "3") 0] {["3"]} [TypeError] []).
Proof.
  apply (run_validated Cascade sample_extension
           [AddLocation "3" " 1 Main St " (mkUpload "a.txt" "text/plain" "");
            AddLocation "4" "   " (mkUpload "a.png" "image/png" "");
            AddIdea "3" "cafe"; AddIdea "3" " "; AddIdea "4" "park"] empty_world).
  - reflexivity.
  - split; [apply map_Forall_empty|constructor].
Defined.

Lemma referenced_Locations locs rows iss con str locs' iss' con' str' :
  (∀ lid, is_Some (locs !! lid) → is_Some (locs' !! lid)) →
  referenced (mkWorld locs rows iss con str) →
  referenced (mkWorld locs' rows iss' con' str').
Proof.
  unfold referenced. simpl. intros Hsub H.
  eapply Forall_impl; [exact H|]. intros g Hg lid Hlid. eauto.
Qed.

Lemma fire_referenced p ext e w c w' :
  p ≠ NoAction →
  fire p ext e w = Some (c, w') → referenced w → referenced w'.
Proof.
  intros Hp.
  destruct e as [newid addr photo|i a|i a|i a|i|i|k|k err]; simpl; intros H Hr.
  - case_decide; [done|]. injection H as H.
    destruct (blank addr) eqn:H1.
    { rewrite addLocation_blank in H by done. by injection H as _ <-. }
    assert (∀ lid, is_Some (Locations w !! lid) →
                   is_Some (<[newid := mkLocation addr None false]> (Locations w) !! lid))
      as Hsub.
    { intros lid Hl. rewrite lookup_insert_is_Some. destruct (decide (newid = lid)); auto. }
    destruct w as [locs rows iss con str].
    destruct (startsWith (mimetype photo) "image") eqn:H2.
    + rewrite addLocation_image in H by done. injection H as _ <-.
      by eapply referenced_Locations.
    + rewrite addLocation_not_image in H by done. injection H as _ <-.
      by eapply referenced_Locations.
  - injection H as H.
    destruct (blank i) eqn:H1.
    { rewrite addIdea_blank_id in H by done. by injection H as _ <-. }
    destruct (blank a) eqn:H2.
    { rewrite addIdea_blank_idea in H by done. by injection H as _ <-. }
    destruct (Locations w !! i) as [l|] eqn:Hl.
    + destruct (list_find (keyed a i) (Suggestions w)) as [[j g]|] eqn:Hf.
      * erewrite addIdea_existing in H by done. by injection H as _ <-.
      * erewrite addIdea_new in H by done. injection H as _ <-.
        unfold referenced. simpl. apply Forall_app. split; [done|].
        apply Forall_singleton. simpl. intros lid [= <-]. by eexists.
    + rewrite addIdea_no_location in H by done. by injection H as _ <-.
  - injection H as H.
    destruct (list_find (joined (Locations w) a i) (Suggestions w))
      as [[j g]|] eqn:Hf.
    + rewrite (upVote_found _ _ _ _ _ Hf) in H. injection H as _ <-.
      unfold referenced. simpl. by apply Forall_alter.
    + rewrite (upVote_missing _ _ _ Hf) in H. by injection H as _ <-.
  - injection H as H.
    destruct (list_find (joined (Locations w) a i) (Suggestions w))
      as [[j g]|] eqn:Hf.
    + rewrite (downVote_found _ _ _ _ _ Hf) in H. injection H as _ <-.
      unfold referenced. simpl. by apply Forall_alter.
    + rewrite (downVote_missing _ _ _ Hf) in H. by injection H as _ <-.
  - injection H as H. destruct (Locations w !! i) as [l|] eqn:Hl.
    + rewrite (approveLocation_found _ _ _ Hl) in H. injection H as _ <-.
      destruct w as [locs rows iss con str].
      eapply referenced_Locations; [|exact Hr].
      intros lid. by rewrite lookup_alter_is_Some.
    + rewrite (approveLocation_missing _ _ Hl) in H. by injection H as _ <-.
  - injection H as H. destruct (Locations w !! i) as [l|] eqn:Hl.
    + rewrite (rejectLocation_found _ _ _ _ Hl) in H. injection H as _ <-.
      unfold referenced in *. simpl.
      destruct p; [done| |]; simpl.
      * apply Forall_fmap. eapply Forall_impl; [exact Hr|].
        intros g Hg. simpl. case_decide as Hgi; simpl; [done|].
        intros lid Hlid. rewrite lookup_delete_ne by congruence. eauto.
      * apply Forall_forall. intros g [Hgi Hin]%list_elem_of_filter lid Hlid.
        rewrite lookup_delete_ne by congruence.
        eapply Forall_forall in Hr; eauto.
    + rewrite (rejectLocation_missing _ _ _ Hl) in H. by injection H as _ <-.
  - destruct (streams w !! k) as [st|]; [|done]. simpl in H.
    injection H as _ <-. destruct w as [locs rows iss con str].
    eapply referenced_Locations; [|exact Hr].
    intros lid. simpl. by rewrite lookup_alter_is_Some.
  - destruct (streams w !! k) as [st|]; [|done]. simpl in H.
    by injection H as _ <-.
Qed.

(** When the association nulls or cascades on delete, no run leaves a
    Suggestion that points to a Location missing from the store: [addIdea]
    attaches ideas to existing Locations only, and a rejection takes the
    references along. *)
Theorem run_referenced p ext es w w' :
  p ≠ NoAction →
  run p ext es w = Some w' → referenced w → referenced w'.
Proof.
  intros Hp. revert w. induction es as [|e es IH]; simpl; intros w H Hr.
  - by injection H as <-.
  - destruct (fire p ext e w) as [[c w1]|] eqn:Hfire; [|done].
    eauto using fire_referenced.
Qed.

Lemma run_referenced_witness :
  referenced
    (mkWorld (delete "1" (Locations sample_world))
             [mkSuggestion "cafe" (Some "2") 5; mkSuggestion "park" (Some "2") 0]
             (issued sample_world) [TypeError; TypeError] []).
Proof.
  apply (run_referenced Cascade sample_extension
           [AddIdea "2" "park"; RejectLocation "1"; AddIdea "1" "pool";
            UpVote "1" "cafe"] sample_world).
  - discriminate.
  - reflexivity.
  - unfold referenced. simpl. repeat constructor; intros lid [= <-]; by eexists.
Defined.

(** ** What a mutation leaves alone *)

(** [addIdea] changes no Location and no stored Suggestion: the table of
    Suggestions after the call is the one before, with at most one row
    appended. *)
Theorem addIdea_frame w id idea' :
  Locations (addIdea id idea' w).2 = Locations w
  ∧ (Suggestions (addIdea id idea' w).2 = Suggestions w
     ∨ Suggestions (addIdea id idea' w).2
       = Suggestions w ++ [mkSuggestion idea' (Some id) 0]).
Proof.
  split; [apply addIdea_tables|].
  destruct (blank id) eqn:H1; [rewrite addIdea_blank_id by done; auto|].
  destruct (blank idea') eqn:H2; [rewrite addIdea_blank_idea by done; auto|].
  destruct (Locations w !! id) as [l|] eqn:Hl;
    [|rewrite addIdea_no_location by done; auto].
  destruct (list_find (keyed idea' id) (Suggestions w)) as [[i g]|] eqn:Hf.
  - erewrite addIdea_existing by done. auto.
  - erewrite addIdea_new by done. auto.
Qed.

(** [approveLocation] changes the [approved] flag of one Location and
    nothing else: every Location keeps its address and imageURL, every
    other Location is as it was, and so are the Suggestions. *)
Theorem approveLocation_frame w id :
  Suggestions (approveLocation id w).2 = Suggestions w
  ∧ (∀ id', id' ≠ id →
       Locations (approveLocation id w).2 !! id' = Locations w !! id')
  ∧ (∀ id', (λ l, (address l, imageURL l)) <$> Locations (approveLocation id w).2 !! id'
            = (λ l, (address l, imageURL l)) <$> Locations w !! id').
Proof.
  destruct (Locations w !! id) as [l|] eqn:Hl.
  - rewrite (approveLocation_found _ _ _ Hl). simpl.
    split; [done|]. split.
    + intros id' Hne. by rewrite lookup_alter_ne.
    + intros id'. destruct (decide (id = id')) as [<-|Hne].
      * by rewrite lookup_alter_eq, Hl.
      * by rewrite lookup_alter_ne.
  - rewrite (approveLocation_missing _ _ Hl). done.
Qed.

(** ** Votes in either order *)

Lemma upVote_voted w id idea' : (upVote id idea' w).2 = voted js_incr id idea' w.
Proof.
  unfold voted.
  destruct (list_find (joined (Locations w) idea' id) (Suggestions w))
    as [[i g]|] eqn:Hf.
  - by rewrite (upVote_found _ _ _ _ _ Hf).
  - by rewrite (upVote_missing _ _ _ Hf).
Qed.

Lemma downVote_voted w id idea' : (downVote id idea' w).2 = voted js_decr id idea' w.
Proof.
  unfold voted.
  destruct (list_find (joined (Locations w) idea' id) (Suggestions w))
    as [[i g]|] eqn:Hf.
  - by rewrite (downVote_found _ _ _ _ _ Hf).
  - by rewrite (downVote_missing _ _ _ Hf).
Qed.

(** A vote on any row moves no lookup: the same position is found, with
    the new count if it is the row voted on. *)
Lemma list_find_joined_alter_any locs idea' id rows j n :
  list_find (joined locs idea' id) (alter (set_votes n) j rows)
  = (λ x, (x.1, if decide (x.1 = j) then set_votes n x.2 else x.2))
      <$> list_find (joined locs idea' id) rows.
Proof.
  destruct (list_find (joined locs idea' id) rows) as [[i g]|] eqn:Hf; simpl.
  - apply list_find_Some in Hf as (Hi & Hg & Hlt).
    apply list_find_Some. split; [|split].
    + rewrite list_lookup_alter. case_decide as Hji.
      * subst j. rewrite Hi. simpl. by rewrite decide_True.
      * rewrite decide_False by done. done.
    + by case_decide.
    + intros k y Hk Hki Hy. rewrite list_lookup_alter in Hk.
      case_decide as Hjk.
      * subst j. destruct (rows !! k) as [y0|] eqn:Hk0; [|done].
        injection Hk as <-. by apply (Hlt k y0).
      * by apply (Hlt k y).
  - apply list_find_None. apply list_find_None in Hf.
    apply Forall_alter; [done|]. intros x _ Hx. exact Hx.
Qed.

(** Two votes commute when their steps commute on every stored count. *)
Lemma voted_commute f1 f2 id1 id2 a1 a2 w :
  (∀ g, g ∈ Suggestions w → f1 (f2 (votes g)) = f2 (f1 (votes g))) →
  voted f2 id2 a2 (voted f1 id1 a1 w) = voted f1 id1 a1 (voted f2 id2 a2 w).
Proof.
  intros Hcomm. unfold voted at 2 4.
  destruct (list_find (joined (Locations w) a1 id1) (Suggestions w))
    as [[i g]|] eqn:H1;
  destruct (list_find (joined (Locations w) a2 id2) (Suggestions w))
    as [[j h]|] eqn:H2;
  unfold voted; simpl; rewrite ?list_find_joined_alter_any, ?H1, ?H2; simpl;
    try reflexivity.
  apply list_find_Some in H1 as (Hi & _). apply list_find_Some in H2 as (Hj & _).
  f_equal. apply list_eq. intros k. rewrite !list_lookup_alter.
  repeat case_decide; simplify_eq; simpl;
    rewrite ?Hi, ?Hj; simpl; try reflexivity.
  unfold set_votes; simpl. do 2 f_equal. symmetry. apply Hcomm.
  apply list_elem_of_lookup. eauto.
Qed.

(** Two upVotes, or two downVotes, on the same Suggestion or on different
    ones, found or not, leave the same store in either order, whatever the
    counts are.  An upVote and a downVote do so when every stored count is
    a safe integer with room for one step (below 2^53 - 1 in magnitude);
    at 2^53 they do not. *)
Theorem votes_commute w id1 id2 a1 a2 :
  (upVote id2 a2 (upVote id1 a1 w).2).2 = (upVote id1 a1 (upVote id2 a2 w).2).2
  ∧ (downVote id2 a2 (downVote id1 a1 w).2).2
    = (downVote id1 a1 (downVote id2 a2 w).2).2
  ∧ (Forall (λ g, Z.abs (votes g) < 2 ^ 53 - 1) (Suggestions w) →
     (downVote id2 a2 (upVote id1 a1 w).2).2
     = (upVote id1 a1 (downVote id2 a2 w).2).2)
  ∧ (downVote "1" "cafe" (upVote "1" "cafe" crowded_world).2).2
    ≠ (upVote "1" "cafe" (downVote "1" "cafe" crowded_world).2).2.
Proof.
  repeat rewrite ?upVote_voted, ?downVote_voted.
  split; [by apply voted_commute|]. split; [by apply voted_commute|]. split.
  - intros Hsafe. apply voted_commute. intros g Hg.
    eapply Forall_forall in Hsafe; [|exact Hg]. simpl in Hsafe.
    unfold js_incr, js_decr. rewrite !(round64_exact (votes g)) by lia.
    rewrite !(round64_exact (votes g - 1)), !(round64_exact (votes g + 1)) by lia.
    rewrite !round64_exact by lia. lia.
  - intros H. apply (f_equal Suggestions) in H. vm_compute in H. discriminate.
Qed.

Lemma votes_commute_witness :
  (downVote "2" "cafe" (upVote "1" "cafe" sample_world).2).2
  = (upVote "1" "cafe" (downVote "2" "cafe" sample_world).2).2.
Proof.
  destruct (votes_commute sample_world "1" "2" "cafe" "cafe") as (_ & _ & H & _).
  apply H. apply (bool_decide_unpack _). vm_compute. exact I.
Defined.
